(** * MCP Control Lite: the dashboard's data pipeline and the synchronization core

    A shallow embedding of the TypeScript front end ([src/App.tsx],
    [src/components/Settings.tsx], [src/components/Logs.tsx],
    [src/components/ServerDetail.tsx], [src/components/Discover.tsx],
    [src/types.ts]) and of the Configuration Synchronization Engine that the front end drives
    through [invoke].  JavaScript objects used as dictionaries are finite maps
    ([gmap string _]), arrays are lists, rejected promises and thrown
    exceptions are explicit error results, and React state is threaded
    explicitly. *)

From stdpp Require Import base option list strings gmap sorting pretty.
From Stdlib Require Import ZArith Lia Ascii.

Local Set Warnings "-register-all".
Local Open Scope string_scope.

(** ** JavaScript values and the primitives the components use *)

Module JS.

(** Values that cross the [invoke] bridge (JSON), plus [NaN] and the two
    infinities, which [parseInt] can produce.  Finite numbers are the
    integers; fractional numbers do not occur in the code paths modelled
    here. *)
Inductive jsval :=
  | JNull
  | JBool (b : bool)
  | JNum (z : Z)
  | JNaN
  | JInfinity (negative : bool)
  | JStr (s : string)
  | JArr (l : list jsval)
  | JObj (m : gmap string jsval).

(** ToBoolean. *)
Definition truthy (v : jsval) : bool :=
  match v with
  | JNull => false
  | JBool b => b
  | JNum z => negb (z =? 0)%Z
  | JNaN => false
  | JInfinity _ => true
  | JStr s => negb (String.eqb s "")
  | JArr _ => true
  | JObj _ => true
  end.

(** [s[i]] for a string: the one-character string at index [i]. *)
Fixpoint char_at (s : string) (i : nat) : option string :=
  match s, i with
  | EmptyString, _ => None
  | String c _, O => Some (String c EmptyString)
  | String _ s', S i' => char_at s' i'
  end.

(** The index an array-index property key denotes: [k] is the canonical
    decimal numeral of some [i] below [n]. *)
Definition array_index (n : nat) (k : string) : option nat :=
  List.find (λ i, String.eqb (pretty i) k) (seq 0 n).

(** Property read [v[k]] on a non-null value; [None] is [undefined].  Own
    properties only: what a value inherits from its prototype (methods,
    [constructor]) is never the boolean [false] nor a JSON value, and is read
    as [None] here. *)
Definition get (v : jsval) (k : string) : option jsval :=
  match v with
  | JObj m => m !! k
  | JArr l =>
      if String.eqb k "length" then Some (JNum (Z.of_nat (length l)))
      else i ← array_index (length l) k; l !! i
  | JStr s =>
      if String.eqb k "length" then Some (JNum (Z.of_nat (String.length s)))
      else i ← array_index (String.length s) k; JStr <$> char_at s i
  | _ => None
  end.

(** Nested property read along a path of keys. *)
Fixpoint get_path (v : jsval) (path : list string) : option jsval :=
  match path with
  | [] => Some v
  | k :: path' => v' ← get v k; get_path v' path'
  end.

(** Own enumerable properties, as object spread [{...v}] copies them. *)
Definition own_props (v : jsval) : gmap string jsval :=
  match v with
  | JObj m => m
  | JArr l => list_to_map (imap (λ i x, (pretty i, x)) l)
  | JStr s =>
      list_to_map (imap (λ i c, (pretty i, JStr (String c EmptyString)))
                        (String.list_ascii_of_string s))
  | _ => ∅
  end.

(** Object spread of two values, [{...a, ...b}]: the properties of [b]
    override those of [a]. *)
Definition spread2 (a b : gmap string jsval) : gmap string jsval := b ∪ a.

(** [v !== false]. *)
Definition is_not_false (v : option jsval) : bool :=
  match v with
  | Some (JBool false) => false
  | _ => true
  end.

(** *** Strings *)

Definition lower_ascii (c : ascii) : ascii :=
  let n := nat_of_ascii c in
  if (65 <=? n)%nat && (n <=? 90)%nat then ascii_of_nat (n + 32) else c.

(** Lower-casing of ASCII text: the letters [A] to [Z] become [a] to
    [z]. *)
Fixpoint ascii_toLowerCase (s : string) : string :=
  match s with
  | EmptyString => EmptyString
  | String c s' => String (lower_ascii c) (ascii_toLowerCase s')
  end.

(** Text made of ASCII characters only. *)
Fixpoint ascii_only (s : string) : bool :=
  match s with
  | EmptyString => true
  | String c s' => (nat_of_ascii c <? 128)%nat && ascii_only s'
  end.

(** *** What the engine supplies

    Two things the components rely on are the engine's own and are not
    computed here.  One is the Unicode lower-case mapping behind
    [String.prototype.toLowerCase]; what is used of it is that on ASCII
    text it lowers the letters [A] to [Z] and nothing else, and that it
    never turns a non-empty string into the empty one.  The other is the
    text of the [TypeError] thrown when a property of [null] is read, as a
    template literal prints it. *)
Class Host := {
  toLowerCase : string → string;
  toLowerCase_ascii s :
    ascii_only s = true → toLowerCase s = ascii_toLowerCase s;
  toLowerCase_nil s : toLowerCase s = "" → s = "";
  null_read_error : string → string
}.

Fixpoint startsWith (s t : string) {struct t} : bool :=
  match t, s with
  | EmptyString, _ => true
  | String _ _, EmptyString => false
  | String b t', String a s' => Ascii.eqb a b && startsWith s' t'
  end.

(** [s.includes(t)].  Text outside ASCII is held in UTF-8; on well-formed
    text one string occurs in another as a run of code units exactly when
    its bytes occur in the bytes of the other. *)
Fixpoint includes (s t : string) : bool :=
  startsWith s t ||
  match s with
  | EmptyString => false
  | String _ s' => includes s' t
  end.

(** *** parseInt *)

(** The white space [parseInt] skips: the ASCII blanks and line ends, and,
    in the UTF-8 text of the input, the other Unicode space separators, the
    no-break space, the byte order mark and the two line separators. *)
Definition is_space (c : ascii) : bool :=
  let n := nat_of_ascii c in
  (n =? 32)%nat || ((9 <=? n)%nat && (n <=? 13)%nat).

Definition is_space2 (c1 c2 : ascii) : bool :=
  (nat_of_ascii c1 =? 194)%nat && (nat_of_ascii c2 =? 160)%nat.

Definition is_space3 (c1 c2 c3 : ascii) : bool :=
  let n1 := nat_of_ascii c1 in
  let n2 := nat_of_ascii c2 in
  let n3 := nat_of_ascii c3 in
  ((n1 =? 225)%nat && (n2 =? 154)%nat && (n3 =? 128)%nat)
  || ((n1 =? 226)%nat && (n2 =? 128)%nat
      && (((128 <=? n3)%nat && (n3 <=? 138)%nat)
          || (n3 =? 168)%nat || (n3 =? 169)%nat || (n3 =? 175)%nat))
  || ((n1 =? 226)%nat && (n2 =? 129)%nat && (n3 =? 159)%nat)
  || ((n1 =? 227)%nat && (n2 =? 128)%nat && (n3 =? 128)%nat)
  || ((n1 =? 239)%nat && (n2 =? 187)%nat && (n3 =? 191)%nat).

Fixpoint skip_spaces (s : string) : string :=
  match s with
  | String c1 s1 =>
      if is_space c1 then skip_spaces s1
      else
        match s1 with
        | String c2 s2 =>
            if is_space2 c1 c2 then skip_spaces s2
            else
              match s2 with
              | String c3 s3 =>
                  if is_space3 c1 c2 c3 then skip_spaces s3 else s
              | EmptyString => s
              end
        | EmptyString => s
        end
  | EmptyString => s
  end.

Definition digit_value (c : ascii) : option Z :=
  let n := nat_of_ascii c in
  if (48 <=? n)%nat && (n <=? 57)%nat then Some (Z.of_nat (n - 48))
  else if (97 <=? n)%nat && (n <=? 102)%nat then Some (Z.of_nat (n - 87))
  else if (65 <=? n)%nat && (n <=? 70)%nat then Some (Z.of_nat (n - 55))
  else None.

(** The longest prefix of digits in the radix, accumulated left to right;
    [None] when there is no digit at all. *)
Fixpoint digits (radix : Z) (s : string) (acc : option Z) : option Z :=
  match s with
  | EmptyString => acc
  | String c s' =>
      match digit_value c with
      | Some d =>
          if (d <? radix)%Z
          then digits radix s' (Some (default 0%Z acc * radix + d)%Z)
          else acc
      | None => acc
      end
  end.

(** An integer-valued number, as [parseInt] returns it. *)
Inductive Number :=
  | NaN
  | Finite (z : Z)
  | Infinity (negative : bool).

(** The largest magnitude up to which every integer is a double. *)
Definition max_exact : Z := 2 ^ 53.

(** The double nearest to an integer.  Up to [2^53] in absolute value the
    integer is a double itself; a larger one keeps its 53 leading bits,
    rounded to nearest with ties to the even significand; from [2^1024] on
    the result is infinite.  (For a decimal numeral of more than twenty
    digits the standard lets an engine round its first twenty digits
    instead; V8 and JavaScriptCore round the whole numeral, as here.) *)
Definition to_double (z : Z) : Number :=
  let a := Z.abs z in
  if (a <=? max_exact)%Z then Finite z
  else
    let e := (Z.log2 a - 52)%Z in
    let q := (a / 2 ^ e)%Z in
    let r := (a mod 2 ^ e)%Z in
    let half := (2 ^ (e - 1))%Z in
    let q' :=
      if (r <? half)%Z then q
      else if (half <? r)%Z then (q + 1)%Z
      else if Z.even q then q else (q + 1)%Z in
    let m := (q' * 2 ^ e)%Z in
    if (2 ^ 1024 <=? m)%Z then Infinity (z <? 0)%Z
    else Finite (Z.sgn z * m)%Z.

Global Arguments to_double : simpl never.

(** [parseInt(s)] with no radix argument: leading white space, an optional
    sign, an optional [0x] prefix selecting radix 16, then digits; the
    integer read is returned as a number. *)
Definition parseInt (s : string) : Number :=
  let s := skip_spaces s in
  let '(sign, s) :=
    match s with
    | String "-" s' => ((-1)%Z, s')
    | String "+" s' => (1%Z, s')
    | _ => (1%Z, s)
    end in
  let '(radix, s) :=
    match s with
    | String "0" (String "x" s') => (16%Z, s')
    | String "0" (String "X" s') => (16%Z, s')
    | _ => (10%Z, s)
    end in
  match digits radix s None with
  | Some n => to_double (sign * n)
  | None => NaN
  end.

(** A number as a value. *)
Definition of_Number (r : Number) : jsval :=
  match r with
  | Finite z => JNum z
  | NaN => JNaN
  | Infinity negative => JInfinity negative
  end.

(** *** Arrays and promises *)

(** [Array.prototype.sort(cmp)]: the sort is stable, and for a consistent
    comparator the result of a stable sort is unique; it is computed here by
    insertion, each element going in front of the first one it does not
    exceed. *)
Fixpoint sort_insert {A : Type} (cmp : A → A → Z) (x : A) (l : list A)
    : list A :=
  match l with
  | [] => [x]
  | y :: l' =>
      if (cmp x y <=? 0)%Z then x :: y :: l' else y :: sort_insert cmp x l'
  end.

Fixpoint sort {A : Type} (cmp : A → A → Z) (l : list A) : list A :=
  match l with
  | [] => []
  | x :: l' => sort_insert cmp x (sort cmp l')
  end.

(** The order a comparator stands for: [a] may stay in front of [b]. *)
Definition cmp_le {A : Type} (cmp : A → A → Z) (a b : A) : Prop :=
  (cmp a b <= 0)%Z.

(** A settled promise, as [await] observes it. *)
Inductive Promise (A : Type) :=
  | Resolved (a : A)
  | Rejected (reason : string).
Global Arguments Resolved {A} a.
Global Arguments Rejected {A} reason.

Definition rejection {A : Type} (p : Promise A) : option string :=
  match p with
  | Rejected e => Some e
  | Resolved _ => None
  end.

Definition fulfilment {A : Type} (p : Promise A) : option A :=
  match p with
  | Resolved a => Some a
  | Rejected _ => None
  end.

(** The order in which the promises of a list settle: [settled] names them
    by index, the earliest first; those it leaves out settle after the ones
    it names, in the order of the list. *)
Definition settle_order {A : Type} (settled : list nat)
    (ps : list (Promise A)) : list nat :=
  settled ++ seq 0 (length ps).

(** The reason of the rejection that settles first, if any promise is
    rejected. *)
Definition first_rejection {A : Type} (settled : list nat)
    (ps : list (Promise A)) : option string :=
  head (omap (λ i, ps !! i ≫= rejection) (settle_order settled ps)).

(** The promise at index [i] is rejected with reason [e], and no rejected
    promise settles before it. *)
Definition rejects_first {A : Type} (settled : list nat)
    (ps : list (Promise A)) (i : nat) (e : string) : Prop :=
  ps !! i = Some (Rejected e) ∧
  ∃ k, settle_order settled ps !! k = Some i ∧
       ∀ k' j, k' < k → settle_order settled ps !! k' = Some j →
               ∀ e', ps !! j ≠ Some (Rejected e').

(** [Promise.all]: the values in the order of the list when every promise
    is fulfilled; otherwise it rejects as soon as one of them does, with
    that one's reason. *)
Definition Promise_all {A : Type} (settled : list nat)
    (ps : list (Promise A)) : Promise (list A) :=
  match first_rejection settled ps with
  | Some e => Rejected e
  | None => Resolved (omap fulfilment ps)
  end.

(** A promise as a member of a [Promise.all] over values of several
    types: only how it settles matters to which rejection comes first. *)
Definition settling {A : Type} (p : Promise A) : Promise unit :=
  match p with
  | Resolved _ => Resolved ()
  | Rejected e => Rejected e
  end.

End JS.

(** ** [src/components/Logs.tsx] *)

Module Logs.

Inductive LogLevel := error | warning | info | debug.
Inductive LogCategory := server | application | system.

Record LogEntry := {
  id : string;
  timestamp : string;
  level : LogLevel;
  category : LogCategory;
  message : string;
  details : option string
}.

(** The two checkbox states, read as [levelFilters[log.level]] and
    [categoryFilters[log.category]]. *)
Definition LevelFilters := LogLevel → bool.
Definition CategoryFilters := LogCategory → bool.

(** The initial checkbox states of the component. *)
Definition initialLevelFilters : LevelFilters :=
  λ l, match l with debug => false | _ => true end.
Definition initialCategoryFilters : CategoryFilters := λ _, true.

Section WithHost.
Context `{JS.Host}.

(** The callback handed to [logs.filter] in [filterLogs]. *)
Definition keeps (searchTerm : string) (levelFilters : LevelFilters)
    (categoryFilters : CategoryFilters) (log : LogEntry) : bool :=
  if negb (levelFilters (level log)) then false
  else if negb (categoryFilters (category log)) then false
  else if negb (String.eqb searchTerm "")
          && negb (JS.includes (JS.toLowerCase (message log))
                               (JS.toLowerCase searchTerm))
          && match details log with
             | Some d =>
                 negb (JS.includes (JS.toLowerCase d)
                                   (JS.toLowerCase searchTerm))
             | None => true
             end
       then false
  else true.

Definition filterLogs (logs : list LogEntry) (searchTerm : string)
    (levelFilters : LevelFilters) (categoryFilters : CategoryFilters)
    : list LogEntry :=
  filter (λ log, keeps searchTerm levelFilters categoryFilters log) logs.

(** What the log view is meant to show.  [text] contains [term] without
    regard to case when the lower-cased term occurs in the lower-cased
    text. *)
Definition contains_ci (text term : string) : Prop :=
  ∃ pre suf : string,
    JS.toLowerCase text = String.append pre (String.append (JS.toLowerCase term) suf).

Definition selected (searchTerm : string) (levelFilters : LevelFilters)
    (categoryFilters : CategoryFilters) (log : LogEntry) : Prop :=
  levelFilters (level log) = true ∧
  categoryFilters (category log) = true ∧
  (searchTerm = "" ∨
   contains_ci (message log) searchTerm ∨
   ∃ d, details log = Some d ∧ contains_ci d searchTerm).

End WithHost.

End Logs.

(** ** [src/types.ts] *)

Module Types.

Record MCPServer := {
  name : string;
  enabled : bool;
  command : option string;
  args : option (list string);
  env : option (gmap string string);
  application : string
}.

Inductive SyncStatus := synced | pending | conflict | error.

Record Application := {
  app_name : string;
  detected : bool;
  configPath : option string;
  serverCount : Z;
  lastSync : option string;
  syncStatus : option SyncStatus
}.

End Types.

(** ** [src/components/Settings.tsx] *)

Module Settings.
Import JS.

(** The settings object held in React state: a JavaScript object, so a
    finite map from field names to values. *)
Abbreviation UserSettings := (gmap string jsval).

Definition defaultEnabledApps : gmap string jsval :=
  list_to_map
    [ ("Claude Desktop", JBool true);
      ("Cursor", JBool true);
      ("Amazon Q Developer", JBool true);
      ("Visual Studio Code", JBool true);
      ("Zed", JBool false);
      ("Continue.dev", JBool false) ].

Definition defaultSettings : UserSettings :=
  list_to_map
    [ ("autoStart", JBool false);
      ("minimizeToTray", JBool true);
      ("checkUpdates", JBool true);
      ("theme", JStr "system");
      ("refreshInterval", JNum 10);
      ("backupLocation", JStr "");
      ("backupFrequency", JStr "weekly");
      ("logLevel", JStr "info");
      ("enableLogs", JBool true);
      ("developerMode", JBool false);
      ("enabledApps", JObj defaultEnabledApps) ].

(** [loadSettings]: the argument is the outcome of
    [invoke('get_settings')]; the result is the new [settings] state. *)
Definition loadSettings (get_settings : string + jsval) : UserSettings :=
  match get_settings with
  | inr savedSettings => spread2 defaultSettings (own_props savedSettings)
  | inl _ => defaultSettings
  end.

(** The [min] and [max] attributes of the refresh-interval input. *)
Definition refreshInterval_min : Z := 5.
Definition refreshInterval_max : Z := 300.

(** The [onChange] handler of the refresh-interval input:
    [setSettings({ ...settings, refreshInterval: parseInt(e.target.value) })]. *)
Definition onChange_refreshInterval (value : string) (settings : UserSettings)
    : UserSettings :=
  <["refreshInterval" := of_Number (parseInt value)]> settings.

(** [saveSettings]: the payload handed to [invoke('save_settings', ...)]. *)
Definition saveSettings (settings : UserSettings) : jsval := JObj settings.

(** The refresh interval, in seconds, that a settings object holds. *)
Definition refreshInterval (settings : UserSettings) : option jsval :=
  settings !! "refreshInterval".

End Settings.

(** ** [src/App.tsx] *)

Module App.
Import JS.
Export Types.

(** One element of [applications] inside a consolidated server. *)
Record AppEntry := {
  entry_name : string;
  entry_enabled : bool;
  entry_command : option string;
  entry_args : option (list string)
}.

(** One element of [consolidatedServers]. *)
Record ConsolidatedServer := {
  cs_name : string;
  applications : list AppEntry
}.

(** [String.prototype.localeCompare] under the host's locale: a consistent
    comparator (negative, zero or positive), as ECMA-402 requires of a
    collator. *)
Class Collator := {
  localeCompare : string → string → Z;
  localeCompare_antisym x y :
    Z.sgn (localeCompare y x) = (- Z.sgn (localeCompare x y))%Z;
  localeCompare_trans x y z :
    (localeCompare x y <= 0)%Z → (localeCompare y z <= 0)%Z →
    (localeCompare x z <= 0)%Z
}.

(** Comparison of strings by code units, a collator that needs no locale
    data. *)
Fixpoint codeunit_compare (x y : string) : Z :=
  match x, y with
  | EmptyString, EmptyString => 0
  | EmptyString, String _ _ => -1
  | String _ _, EmptyString => 1
  | String a x', String b y' =>
      let d := (Z.of_nat (nat_of_ascii a) - Z.of_nat (nat_of_ascii b))%Z in
      if (d =? 0)%Z then codeunit_compare x' y' else d
  end.

(** The commands of the Tauri back end that [App.tsx] invokes.  Each takes
    the back end's state and returns the settled promise with the next
    state; commands are served one at a time, in the order they are
    issued. *)
Record Backend (B : Type) := {
  get_servers : B → Promise (list MCPServer) * B;
  get_applications : B → Promise (list Application) * B;
  get_system_status : B → Promise jsval * B;
  get_settings : B → Promise jsval * B;
  toggle_server : string → string → bool → B → Promise unit * B;
  sync_application : string → B → Promise unit * B
}.
Global Arguments get_servers {B} _ _.
Global Arguments get_applications {B} _ _.
Global Arguments get_system_status {B} _ _.
Global Arguments get_settings {B} _ _.
Global Arguments toggle_server {B} _ _ _ _ _.
Global Arguments sync_application {B} _ _ _.

(** The component's React state. *)
Record UIState := {
  consolidatedServers : list ConsolidatedServer;
  applicationsState : list Application;
  systemStatus : option jsval;
  loading : bool;
  error : option string
}.

Definition initialState : UIState :=
  {| consolidatedServers := []; applicationsState := []; systemStatus := None;
     loading := true; error := None |}.

Definition setError (e : option string) (ui : UIState) : UIState :=
  {| consolidatedServers := consolidatedServers ui;
     applicationsState := applicationsState ui;
     systemStatus := systemStatus ui;
     loading := loading ui;
     error := e |}.

Definition setLoading (b : bool) (ui : UIState) : UIState :=
  {| consolidatedServers := consolidatedServers ui;
     applicationsState := applicationsState ui;
     systemStatus := systemStatus ui;
     loading := b;
     error := error ui |}.

(** The delay of [setInterval(loadData, 10000)], in milliseconds. *)
Definition refresh_delay_ms : Z := 10000.

Section WithCollator.
Context `{Collator} `{Host}.

(** What [settingsData.enabledApps] throws when [settingsData] is [null],
    as [`${error}`] prints it. *)
Definition null_property_error : string := null_read_error "enabledApps".

(** The comparator handed to [serversData.sort]. *)
Definition compareServers (a b : MCPServer) : Z :=
  let nameCompare := localeCompare (name a) (name b) in
  if negb (nameCompare =? 0)%Z then nameCompare
  else localeCompare (application a) (application b).

Definition sortedServers (serversData : list MCPServer) : list MCPServer :=
  sort compareServers serversData.

(** [settingsData.enabledApps || {}]; [None] when [settingsData] is [null],
    where the property read throws. *)
Definition enabledAppsSettings (settingsData : jsval) : option jsval :=
  match settingsData with
  | JNull => None
  | _ =>
      Some match get settingsData "enabledApps" with
           | Some v => if truthy v then v else JObj ∅
           | None => JObj ∅
           end
  end.

(** The callback of [sortedServers.filter]:
    [enabledAppsSettings[server.application] !== false]. *)
Definition appShown (enabledAppsSettings : jsval) (server : MCPServer) : bool :=
  is_not_false (get enabledAppsSettings (application server)).

Definition filteredServers (enabledAppsSettings : jsval)
    (sortedServers : list MCPServer) : list MCPServer :=
  filter (λ server, appShown enabledAppsSettings server) sortedServers.

Definition toAppEntry (server : MCPServer) : AppEntry :=
  {| entry_name := application server;
     entry_enabled := enabled server;
     entry_command := command server;
     entry_args := args server |}.

(** The reducer of [filteredServers.reduce]: [acc.find] returns the first
    entry of that name; its [applications] array is extended in place, or a
    new entry is pushed at the end of [acc]. *)
Definition consolidate_step (acc : list ConsolidatedServer)
    (server : MCPServer) : list ConsolidatedServer :=
  match list_find (λ s, cs_name s = name server) acc with
  | Some (i, existing) =>
      <[i := {| cs_name := cs_name existing;
                applications := applications existing ++ [toAppEntry server] |}]>
        acc
  | None =>
      acc ++ [ {| cs_name := name server;
                  applications := [toAppEntry server] |} ]
  end.

Definition consolidate (filteredServers : list MCPServer)
    : list ConsolidatedServer :=
  foldl consolidate_step [] filteredServers.

(** The synchronous body of [loadData] from the sort to the reduce: the
    consolidated view of the servers the back end returned, or the exception
    thrown on the way. *)
Definition rebuild (serversData : list MCPServer) (settingsData : jsval)
    : Promise (list ConsolidatedServer) :=
  match enabledAppsSettings settingsData with
  | Some eas =>
      Resolved (consolidate (filteredServers eas (sortedServers serversData)))
  | None => Rejected null_property_error
  end.

(** Alphabetical order, as the collator sees it. *)
Definition alphabetical (x y : string) : Prop := (localeCompare x y <= 0)%Z.

Definition compareApplications (a b : Application) : Z :=
  localeCompare (app_name a) (app_name b).

Section WithBackend.
Context {B : Type} (backend : Backend B).

(** [loadData]: the four commands are issued together and awaited with
    [Promise.all]; the rejection that settles first, or else the exception
    thrown while the view is rebuilt, lands in the [catch].  [settled] is
    the order in which the four promises settle. *)
Definition loadData (settled : list nat) (ui : UIState) (b : B)
    : UIState * B :=
  let ui := setError None ui in
  let '(serversData, b) := get_servers backend b in
  let '(appsData, b) := get_applications backend b in
  let '(statusData, b) := get_system_status backend b in
  let '(settingsData, b) := get_settings backend b in
  let ui :=
    match first_rejection settled
            [settling serversData; settling appsData; settling statusData;
             settling settingsData],
          serversData, appsData, statusData, settingsData with
    | None, Resolved serversData, Resolved appsData, Resolved statusData,
      Resolved settingsData =>
        match rebuild serversData settingsData with
        | Resolved consolidated =>
            {| consolidatedServers := consolidated;
               applicationsState := sort compareApplications appsData;
               systemStatus := Some statusData;
               loading := loading ui;
               error := error ui |}
        | Rejected e => setError (Some ("Failed to load data: " ++ e)) ui
        end
    | Some e, _, _, _, _ => setError (Some ("Failed to load data: " ++ e)) ui
    | None, _, _, _, _ => ui
    end in
  (setLoading false ui, b).

(** [handleToggleServer]: the switch passes the entry's current flag and the
    handler requests its negation. *)
Definition handleToggleServer (settled : list nat)
    (serverName application : string)
    (enabled : bool) (ui : UIState) (b : B) : UIState * B :=
  match toggle_server backend serverName application (negb enabled) b with
  | (Resolved _, b) => loadData settled ui b
  | (Rejected e, b) => (setError (Some ("Failed to toggle server: " ++ e)) ui, b)
  end.

(** The [invoke] calls that [server.applications.map] issues, one per
    application entry, each served by the back end in turn. *)
Fixpoint invoke_toggles (serverName : string) (enabled : bool)
    (apps : list AppEntry) (b : B) : list (Promise unit) * B :=
  match apps with
  | [] => ([], b)
  | app :: apps' =>
      let '(p, b) := toggle_server backend serverName (entry_name app) enabled b in
      let '(ps, b) := invoke_toggles serverName enabled apps' b in
      (p :: ps, b)
  end.

(** The back end's state once the toggles of [apps] have been served. *)
Definition after_toggles (serverName : string) (enabled : bool)
    (apps : list AppEntry) (b : B) : B :=
  foldl (λ b app,
           (toggle_server backend serverName (entry_name app) enabled b).2)
        b apps.

(** [handleToggleAllApps]; [settled] is the order in which the toggles
    settle, [settled'] that of the reload that follows. *)
Definition handleToggleAllApps (settled settled' : list nat)
    (serverName : string) (enabled : bool)
    (ui : UIState) (b : B) : UIState * B :=
  match List.find (λ s, String.eqb (cs_name s) serverName)
                  (consolidatedServers ui) with
  | Some server =>
      let '(ps, b) := invoke_toggles serverName enabled (applications server) b in
      match Promise_all settled ps with
      | Resolved _ => loadData settled' ui b
      | Rejected e =>
          (setError (Some ("Failed to toggle server: " ++ e)) ui, b)
      end
  | None => (ui, b)
  end.

(** [handleSyncApplication]. *)
Definition handleSyncApplication (settled : list nat) (appName : string)
    (ui : UIState) (b : B) : UIState * B :=
  match sync_application backend appName b with
  | (Resolved _, b) => loadData settled (setError None ui) b
  | (Rejected e, b) =>
      (setError (Some ("Failed to sync " ++ appName ++ ": " ++ e)) ui, b)
  end.

(** *** The effect that keeps the view fresh

    [useEffect(() => { loadData(); initializeTheme(); ...;
    const interval = setInterval(loadData, 10000);
    return () => { clearInterval(interval); ... } }, [consolidatedServers])].
    A load is taken at the moment it completes. *)

(** The mounted component: its view, the delay in milliseconds of the
    interval timer that is armed, if one is, and whether
    [consolidatedServers] has been set since the effect last ran.
    [setConsolidatedServers] is always handed a new array, so React then
    runs the effect again. *)
Record Dashboard := {
  ui_state : UIState;
  interval_ms : option Z;
  effect_pending : bool
}.

(** After the first render: no timer yet, the effect about to run. *)
Definition mounted : Dashboard :=
  {| ui_state := initialState; interval_ms := None; effect_pending := true |}.

(** Whether the load that produced [ui] reached [setConsolidatedServers]:
    [loadData] clears the error first and sets one only in its [catch]. *)
Definition loaded (ui : UIState) : bool := bool_decide (error ui = None).

(** One run of the effect.  The clean-up of the run before it has cleared
    that run's timer; the body calls [loadData] and [initializeTheme], which
    asks for the settings once more, and arms a new timer. *)
Definition runEffect (settled : list nat) (d : Dashboard) (b : B)
    : Dashboard * B :=
  let '(ui, b) := loadData settled (ui_state d) b in
  let '(_, b) := get_settings backend b in
  ({| ui_state := ui;
      interval_ms := Some refresh_delay_ms;
      effect_pending := loaded ui |}, b).

(** [loadData] called outside the effect: by the timer, by the tray's
    [refresh-data] event, or by a handler once its command has settled. *)
Definition reload (settled : list nat) (d : Dashboard) (b : B)
    : Dashboard * B :=
  let '(ui, b) := loadData settled (ui_state d) b in
  ({| ui_state := ui;
      interval_ms := interval_ms d;
      effect_pending := effect_pending d || loaded ui |}, b).

(** The timer fires, if one is armed. *)
Definition intervalTick (settled : list nat) (d : Dashboard) (b : B)
    : Dashboard * B :=
  match interval_ms d with
  | Some _ => reload settled d b
  | None => (d, b)
  end.

(** What happens to the mounted component: React runs the effect when it
    is due, the timer fires, or something else calls [loadData]. *)
Inductive Event := Render | Tick | Reload.

Definition step (d_b : Dashboard * B) (ev : Event * list nat)
    : Dashboard * B :=
  let '(d, b) := d_b in
  match ev.1 with
  | Render => if effect_pending d then runEffect ev.2 d b else (d, b)
  | Tick => intervalTick ev.2 d b
  | Reload => reload ev.2 d b
  end.

Definition run (events : list (Event * list nat)) (b : B) : Dashboard * B :=
  foldl step (mounted, b) events.

End WithBackend.
End WithCollator.

End App.

(** ** The Configuration Synchronization Engine behind [invoke]

    The Rust back end ([src-tauri/]) serves [toggle_server] and
    [sync_application]; its sources are not part of the front end.  The
    definitions of this module follow the engine's specification
    (sections 3, 4.1 to 4.4 and 7). *)

Module Engine.
Export Types.

(** Modelled from the spec: the error taxonomy of section 7, for the absent
    back end. *)
Inductive Error :=
  | ConfigNotFoundError
  | ConfigParseError
  | WriteConflictError
  | PermissionError
  | ValidationError
  | BackupFailedError.

(** Modelled from the spec: the result type of the back end's operations
    ([toggleServer(...) -> Result], [syncApplication(...) -> Result]), absent
    from the front end. *)
Inductive Result :=
  | Ok
  | Err (e : Error).

Section Coordinator.

(** The on-disk content of a configuration file, its hash, the adapter's
    parser and serializer, and the backup retention count. *)
Context {Content Hash : Type} `{EqDecision Hash}.
Context (contentHash : Content → Hash).
Context (parse : Content → option (list MCPServer)).
Context (serialize : list MCPServer → Content).
Context (retention : nat).

(** Modelled from the spec: the engine's state (section 3), absent from the
    front end: per application, the configuration file on disk, the
    SyncRecord's content hash captured at the last successful read, the
    in-memory servers of the registry, the syncStatus, and the backups, most
    recent first. *)
Record State := {
  files : gmap string Content;
  records : gmap string Hash;
  registry : gmap string (list MCPServer);
  status : gmap string SyncStatus;
  backups : gmap string (list Content)
}.

(** Modelled from the spec: the adapter's [read] as the coordinator uses it
    (sections 4.1 and 3), absent from the front end: an absent file is
    reported without touching the state, malformed content sets [error], and
    a successful read stores the servers, overwrites the SyncRecord with the
    content's hash and sets [synced]. *)
Definition read (appName : string) (st : State) : Result * State :=
  match files st !! appName with
  | None => (Err ConfigNotFoundError, st)
  | Some content =>
      match parse content with
      | None =>
          (Err ConfigParseError,
           {| files := files st; records := records st;
              registry := registry st;
              status := <[appName := error]> (status st);
              backups := backups st |})
      | Some servers =>
          (Ok,
           {| files := files st;
              records := <[appName := contentHash content]> (records st);
              registry := <[appName := servers]> (registry st);
              status := <[appName := synced]> (status st);
              backups := backups st |})
      end
  end.

(** Modelled from the spec: an out-of-band modification of an application's
    file by another program (section 4.3), which touches the disk only. *)
Definition external_write (appName : string) (content : Content) (st : State)
    : State :=
  {| files := <[appName := content]> (files st);
     records := records st; registry := registry st; status := status st;
     backups := backups st |}.

(** Modelled from the spec: the coordinator recording an application's
    syncStatus (section 4.3). *)
Definition set_status (appName : string) (s : SyncStatus) (st : State)
    : State :=
  {| files := files st; records := records st; registry := registry st;
     status := <[appName := s]> (status st); backups := backups st |}.

(** Modelled from the spec: the Backup Manager's [snapshot] with its
    retention (section 4.4), absent from the front end: the current content
    is stored first and the most recent [retention] backups are kept. *)
Definition snapshot (appName : string) (currentContent : Content)
    (st : State) : State :=
  {| files := files st; records := records st; registry := registry st;
     status := status st;
     backups :=
       <[appName := take retention
                      (currentContent :: default [] (backups st !! appName))]>
         (backups st) |}.

(** Modelled from the spec: the Sync Coordinator's [syncOne] (section 4.3),
    absent from the front end: it recomputes the on-disk hash; if it matches
    the SyncRecord it backs up, writes the registry's servers, updates the
    SyncRecord and sets [synced]; if it does not match it sets [conflict]
    and aborts the write; a file that has disappeared, or an application
    never read, gives [error]. *)
Definition syncOne (appName : string) (st : State) : Result * State :=
  match files st !! appName with
  | None => (Err ConfigNotFoundError, set_status appName error st)
  | Some current =>
      match records st !! appName with
      | None => (Err ConfigNotFoundError, set_status appName error st)
      | Some recorded =>
          if decide (contentHash current = recorded) then
            match registry st !! appName with
            | None => (Err ConfigNotFoundError, set_status appName error st)
            | Some servers =>
                let st := snapshot appName current st in
                let written := serialize servers in
                (Ok,
                 {| files := <[appName := written]> (files st);
                    records := <[appName := contentHash written]> (records st);
                    registry := registry st;
                    status := <[appName := synced]> (status st);
                    backups := backups st |})
            end
          else (Err WriteConflictError, set_status appName conflict st)
      end
  end.

(** Modelled from the spec: the change a toggle makes to one entry, its
    enabled flag and nothing else (section 4.2). *)
Definition set_enabled (enabled : bool) (s : MCPServer) : MCPServer :=
  {| name := name s; enabled := enabled; command := command s;
     args := args s; env := env s; application := application s |}.

(** Modelled from the spec: the Server Registry's [toggle] (section 4.2),
    absent from the front end: it changes the one entry of that name in that
    application and marks the application [pending]; it is a no-op, not an
    error, when the entry already has the requested value; [conflict] and
    [error] are not cleared by it (sections 3 and 4.3); an application or an
    entry that is not there is reported and nothing changes. *)
Definition toggle (serverName appName : string) (enabled : bool) (st : State)
    : Result * State :=
  match registry st !! appName with
  | None => (Err ConfigNotFoundError, st)
  | Some servers =>
      match list_find (λ s, name s = serverName) servers with
      | None => (Err ValidationError, st)
      | Some (i, s) =>
          if decide (Types.enabled s = enabled) then (Ok, st)
          else
            (Ok,
             {| files := files st; records := records st;
                registry :=
                  <[appName := <[i := set_enabled enabled s]> servers]>
                    (registry st);
                status :=
                  match status st !! appName with
                  | Some conflict => status st
                  | Some error => status st
                  | _ => <[appName := pending]> (status st)
                  end;
                backups := backups st |})
      end
  end.

(** Modelled from the spec: a sequence of toggle requests
    [(serverName, appName, enabled)], run as discrete, serialized operations
    (section 5), whatever each one returns. *)
Definition toggles (reqs : list (string * string * bool)) (st : State)
    : State :=
  foldl (λ st '(serverName, appName, enabled),
           (toggle serverName appName enabled st).2) st reqs.

(** Modelled from the spec: the engine as the back end of the front end's
    handlers, an error reaching the caller under the name section 7 gives
    it. *)
Definition show_error (e : Error) : string :=
  match e with
  | ConfigNotFoundError => "ConfigNotFoundError"
  | ConfigParseError => "ConfigParseError"
  | WriteConflictError => "WriteConflictError"
  | PermissionError => "PermissionError"
  | ValidationError => "ValidationError"
  | BackupFailedError => "BackupFailedError"
  end.

(** Modelled from the spec: a [Result] as the promise [invoke] settles
    with. *)
Definition settle (r : Result * State) : JS.Promise unit * State :=
  match r with
  | (Ok, st) => (JS.Resolved (), st)
  | (Err e, st) => (JS.Rejected (show_error e), st)
  end.

(** Modelled from the spec: the commands of section 6 that [App.tsx]
    invokes, served by the engine; the applications and the system status
    are left empty. *)
Definition backend (settings : JS.jsval) : App.Backend State :=
  {| App.get_servers st :=
       (JS.Resolved (mjoin (snd <$> map_to_list (registry st))), st);
     App.get_applications st := (JS.Resolved [], st);
     App.get_system_status st := (JS.Resolved JS.JNull, st);
     App.get_settings st := (JS.Resolved settings, st);
     App.toggle_server serverName appName enabled st :=
       settle (toggle serverName appName enabled st);
     App.sync_application appName st := settle (syncOne appName st) |}.

End Coordinator.

End Engine.

(** ** Sample data *)

(** Sample data: three applications sharing server names, and settings
    documents that hide one application or none. *)
Definition sample_server (n app : string) (on : bool) : Types.MCPServer :=
  {| Types.name := n; Types.enabled := on; Types.command := Some "npx";
     Types.args := Some ["-y"; n]; Types.env := None;
     Types.application := app |}.

Definition sample_servers : list Types.MCPServer :=
  [ sample_server "weather" "Cursor" true;
    sample_server "filesystem" "Zed" true;
    sample_server "filesystem" "Claude Desktop" false;
    sample_server "weather" "Claude Desktop" true;
    sample_server "broken" "Zed" false ].

Definition settings_hiding_zed : JS.jsval :=
  JS.JObj {[ "enabledApps" := JS.JObj {[ "Zed" := JS.JBool false ]} ]}.

Definition settings_without_enabledApps : JS.jsval :=
  JS.JObj {[ "theme" := JS.JStr "dark" ]}.

Definition partial_enabledApps : JS.jsval :=
  JS.JObj {[ "enabledApps" := JS.JObj {[ "Cursor" := JS.JBool false ]} ]}.

(** The entries of [generateSampleLogs], with the offsets in milliseconds
    in place of the timestamps and the quotation marks and line breaks of the
    texts left out. *)
Definition sample_logs : list Logs.LogEntry :=
  [ {| Logs.id := "1"; Logs.timestamp := "-60000"; Logs.level := Logs.info;
       Logs.category := Logs.server;
       Logs.message := "MCP server filesystem started successfully";
       Logs.details := Some "Server listening on port 3001, PID: 12345" |};
    {| Logs.id := "2"; Logs.timestamp := "-120000";
       Logs.level := Logs.warning; Logs.category := Logs.application;
       Logs.message := "Claude Desktop configuration updated";
       Logs.details := Some "Server weather-api was disabled by user" |};
    {| Logs.id := "3"; Logs.timestamp := "-180000"; Logs.level := Logs.error;
       Logs.category := Logs.server;
       Logs.message := "Failed to start MCP server broken-server";
       Logs.details := Some "Error: Command not found: /invalid/path/to/server" |};
    {| Logs.id := "4"; Logs.timestamp := "-240000"; Logs.level := Logs.info;
       Logs.category := Logs.system;
       Logs.message := "Configuration sync completed";
       Logs.details := Some "Synced 3 applications, 12 servers total" |};
    {| Logs.id := "5"; Logs.timestamp := "-300000"; Logs.level := Logs.debug;
       Logs.category := Logs.system;
       Logs.message := "Application detection scan started";
       Logs.details :=
         Some "Scanning for: Claude Desktop, Cursor, VS Code, Amazon Q" |} ].

(** The entry [loadLogs] shows when logging is disabled; it has no
    details. *)
Definition disabled_log : Logs.LogEntry :=
  {| Logs.id := "disabled-0"; Logs.timestamp := "0"; Logs.level := Logs.info;
     Logs.category := Logs.system;
     Logs.message :=
       "Logging is disabled in settings. Enable logging to see system events.";
     Logs.details := None |}.

(** A small engine to run the theorems on: a file holds its servers, and the
    hash of a file is the number of servers in it. *)
Module Demo.
Import Engine.

Definition Content := list MCPServer.
Definition contentHash (c : Content) : nat := length c.
Definition parse (c : Content) : option (list MCPServer) := Some c.
Definition serialize (servers : list MCPServer) : Content := servers.
Definition retention : nat := 10.

Definition of_files (fs : gmap string Content) : @State Content nat :=
  {| files := fs; records := ∅; registry := ∅; status := ∅; backups := ∅ |}.

(** Cursor's file on disk, before anything is read. *)
Definition on_disk : @State Content nat :=
  of_files {[ "Cursor" := [sample_server "filesystem" "Cursor" true] ]}.

Definition after_read : @State Content nat :=
  (read contentHash parse "Cursor" on_disk).2.

Definition edited_elsewhere : Content :=
  [ sample_server "filesystem" "Cursor" true;
    sample_server "weather" "Cursor" true ].

(** The registry with [filesystem] in the given applications. *)
Definition loaded (apps : list string) : @State Content nat :=
  {| files := ∅; records := ∅;
     registry :=
       list_to_map ((λ app, (app, [sample_server "filesystem" app true])) <$> apps);
     status := ∅; backups := ∅ |}.

Definition backend : App.Backend (@State Content nat) :=
  Engine.backend contentHash serialize retention settings_without_enabledApps.

(** The same engine with a settings document in which the refresh interval
    has been set to 60 seconds. *)
Definition backend60 : App.Backend (@State Content nat) :=
  Engine.backend contentHash serialize retention
    (Settings.saveSettings
       (Settings.onChange_refreshInterval "60" Settings.defaultSettings)).

Definition three_apps : list App.AppEntry :=
  App.toAppEntry <$>
    [ sample_server "filesystem" "Claude Desktop" true;
      sample_server "filesystem" "Cursor" true;
      sample_server "filesystem" "Zed" true ].

Definition ui : App.UIState :=
  {| App.consolidatedServers :=
       [ {| App.cs_name := "filesystem"; App.applications := three_apps |} ];
     App.applicationsState := []; App.systemStatus := None;
     App.loading := false; App.error := None |}.

End Demo.

(** ** The rest of [src/App.tsx]: what the servers view derives, and the theme *)

Module AppView.
Import JS App.

(** [server.applications.every((app) => app.enabled)]. *)
Definition allEnabled (server : ConsolidatedServer) : bool :=
  forallb entry_enabled (applications server).

(** [server.applications.some((app) => app.enabled)]. *)
Definition someEnabled (server : ConsolidatedServer) : bool :=
  existsb entry_enabled (applications server).

(** The rows the servers view draws: one per consolidated server and
    application of it. *)
Definition rows (consolidated : list ConsolidatedServer)
    : list (string * AppEntry) :=
  consolidated ≫= λ server, (λ app, (cs_name server, app)) <$> applications server.

(** The row a server record stands for. *)
Definition row_of (server : MCPServer) : string * AppEntry :=
  (name server, toAppEntry server).

(** A promise that settled with a value. *)
Definition resolved {A : Type} (p : Promise A) : Prop := ∃ a, p = Resolved a.

(** The class list of the document's root element, as a set of class
    names. *)
Abbreviation ClassList := (gset string).

(** [applyTheme], the same function in [App.tsx] and [Settings.tsx];
    [prefersDark] is what [matchMedia('(prefers-color-scheme: dark)')]
    answers. *)
Definition applyTheme (prefersDark : bool) (theme : jsval) (root : ClassList)
    : ClassList :=
  let system :=
    let root := root ∖ {["dark-theme"]} ∖ {["light-theme"]} in
    if prefersDark then root ∪ {["dark-theme"]} else root ∪ {["light-theme"]} in
  match theme with
  | JStr theme =>
      if String.eqb theme "dark" then
        (root ∪ {["dark-theme"]}) ∖ {["light-theme"]}
      else if String.eqb theme "light" then
        (root ∪ {["light-theme"]}) ∖ {["dark-theme"]}
      else system
  | _ => system
  end.

(** [initializeTheme]: the argument is the outcome of
    [invoke('get_settings')]; reading [theme] off [null] throws, and the
    [catch] applies the system theme. *)
Definition initializeTheme (prefersDark : bool) (get_settings : Promise jsval)
    (root : ClassList) : ClassList :=
  match get_settings with
  | Resolved JNull => applyTheme prefersDark (JStr "system") root
  | Resolved savedSettings =>
      applyTheme prefersDark
        match get savedSettings "theme" with
        | Some theme => if truthy theme then theme else JStr "system"
        | None => JStr "system"
        end
        root
  | Rejected _ => applyTheme prefersDark (JStr "system") root
  end.

End AppView.

(** ** The rest of [src/components/Settings.tsx] *)

Module SettingsForm.
Import JS Settings.

(** The [onChange] handler of an application's check box:
    [setSettings({ ...settings,
       enabledApps: { ...settings.enabledApps, [app]: e.target.checked } })]. *)
Definition onChange_enabledApp (app : string) (checked : bool)
    (settings : UserSettings) : UserSettings :=
  <["enabledApps" :=
      JObj (<[app := JBool checked]>
              (from_option own_props ∅ (settings !! "enabledApps")))]>
    settings.

(** The buttons of the form that report through [message]. *)
Inductive Action := Save | Backup | Export | Import.

(** The message each handler ([saveSettings], [handleBackup],
    [handleExport], [handleImport]) sets once its command has settled. *)
Definition message_of (a : Action) (outcome : Promise unit) : string :=
  match a, outcome with
  | Save, Resolved _ => "Settings saved successfully!"
  | Save, Rejected _ => "Failed to save settings"
  | Backup, Resolved _ => "Backup created successfully!"
  | Backup, Rejected _ => "Failed to create backup"
  | Export, Resolved _ => "Configuration exported successfully!"
  | Export, Rejected _ => "Failed to export configuration"
  | Import, Resolved _ => "Configuration imported successfully!"
  | Import, Rejected _ => "Failed to import configuration"
  end.

(** The banner is drawn in the error colours when
    [message.includes('Failed')]. *)
Definition drawn_as_error (message : string) : bool :=
  includes message "Failed".

End SettingsForm.

(** ** The rest of [src/components/Logs.tsx] *)

Module LogsView.
Import JS Logs.

(** [toggleLogExpansion]: [expandedLogs] is a [Set] of entry ids. *)
Definition toggleLogExpansion (logId : string) (expandedLogs : gset string)
    : gset string :=
  if decide (logId ∈ expandedLogs) then expandedLogs ∖ {[logId]}
  else expandedLogs ∪ {[logId]}.

(** [===] on the names of two levels. *)
Definition LogLevel_eqb (a b : LogLevel) : bool :=
  match a, b with
  | error, error | warning, warning | info, info | debug, debug => true
  | _, _ => false
  end.

(** The [onChange] handler of a level's check box:
    [setLevelFilters({ ...levelFilters, [level]: e.target.checked })]. *)
Definition onChange_level (l : LogLevel) (checked : bool)
    (levelFilters : LevelFilters) : LevelFilters :=
  λ l', if LogLevel_eqb l' l then checked else levelFilters l'.

(** The two commands [loadLogs] invokes. *)
Record Backend (B : Type) := {
  get_settings : B → Promise jsval * B;
  get_logs : B → Promise (list LogEntry) * B
}.
Global Arguments get_settings {B} _ _.
Global Arguments get_logs {B} _ _.

(** The entry shown when logging is disabled; [now] is [Date.now()] and
    [iso] is [new Date().toISOString()]. *)
Definition disabledEntry (now : N) (iso : string) : LogEntry :=
  {| id := String.append "disabled-" (pretty now);
     timestamp := iso;
     level := info;
     category := system;
     message :=
       "Logging is disabled in settings. Enable logging to see system events.";
     details := None |}.

(** [loadLogs]: the new [logs] state and [loading] flag.  [sampleLogs] is
    what [generateSampleLogs] returns at that moment.  The [return] inside
    the [try] still runs the [finally]. *)
Definition loadLogs {B : Type} (backend : Backend B) (now : N) (iso : string)
    (sampleLogs : list LogEntry) (b : B) : list LogEntry * bool * B :=
  match get_settings backend b with
  | (Rejected _, b) => (sampleLogs, false, b)
  | (Resolved settings, b) =>
      if truthy settings
         && negb (is_not_false (get settings "enableLogs"))
      then ([disabledEntry now iso], false, b)
      else
        match get_logs backend b with
        | (Resolved logsData, b) => (logsData, false, b)
        | (Rejected _, b) => (sampleLogs, false, b)
        end
  end.

End LogsView.

(** ** The server dialog: [src/components/ServerDetail.tsx] and its later
    version kept in [src/components/Discover.tsx] *)

Module ServerDetail.
Import JS.

(** An element of [config.args]: a string, [undefined], or an empty slot,
    which assigning past the end of an array leaves behind. *)
Inductive Slot :=
  | Empty
  | Undefined
  | Str (s : string).

#[export] Instance Slot_eq_dec : EqDecision Slot.
Proof. solve_decision. Defined.

Abbreviation Args := (list Slot).

(** [[...args]]: the copy reads an empty slot as [undefined]. *)
Definition spread_array (args : Args) : Args :=
  (λ a, match a with Empty => Undefined | _ => a end) <$> args.

(** [addArg]: [[...config.args, '']]. *)
Definition addArg (args : Args) : Args := (spread_array args ++ [Str ""])%list.

(** [updateArg]: [newArgs[index] = value] on a copy; past the end the array
    grows, with empty slots in between. *)
Definition updateArg (index : nat) (value : string) (args : Args) : Args :=
  let newArgs := spread_array args in
  if decide (index < length newArgs) then <[index := Str value]> newArgs
  else (newArgs ++ replicate (index - length newArgs) Empty ++ [Str value])%list.

(** [removeArg]: [config.args.filter((_, i) => i !== index)]; [filter] does
    not visit empty slots. *)
Definition removeArg (index : nat) (args : Args) : Args :=
  snd <$>
    filter (λ p : nat * Slot, p.1 ≠ index)
           (filter (λ p : nat * Slot, p.2 ≠ Empty) (imap (λ i a, (i, a)) args)).

(** [config.env]: an object from names to values; a name can hold
    [undefined] ([None]) after a rename of a name that was not there. *)
Abbreviation Env := (gmap string (option string)).

(** [addEnv]: the new name is [ENV_VAR_] followed by the number of names
    plus one. *)
Definition newKey (env : Env) : string :=
  String.append "ENV_VAR_" (pretty (size env + 1)).

Definition addEnv (env : Env) : Env := <[newKey env := Some ""]> env.

(** [updateEnvKey]:
    [const newEnv = { ...config.env }; const value = newEnv[oldKey];
     delete newEnv[oldKey]; newEnv[newKey] = value].  The read is that of a
    name the object holds.  The assignment writes the property, or defines
    it when the object has none of that name, except under the name
    [__proto__]: an object without a property of its own of that name hands
    the assignment to the setter of [Object.prototype], which ignores a
    string and [undefined], and the object gains nothing. *)
Definition updateEnvKey (oldKey newKey : string) (env : Env) : Env :=
  if String.eqb oldKey newKey then env
  else
    let value := mjoin (env !! oldKey) in
    let newEnv := delete oldKey env in
    match newEnv !! newKey with
    | None =>
        if String.eqb newKey "__proto__" then newEnv
        else <[newKey := value]> newEnv
    | Some _ => <[newKey := value]> newEnv
    end.

(** [updateEnvValue]. *)
Definition updateEnvValue (key value : string) (env : Env) : Env :=
  <[key := Some value]> env.

(** [removeEnv]. *)
Definition removeEnv (key : string) (env : Env) : Env := delete key env.

(** The dialog's [config] object. *)
Abbreviation Config := (gmap string jsval).

(** The [onChange] handlers of the port, rate limit and timeout inputs:
    [setConfig({ ...config, [field]: parseInt(e.target.value) || undefined })].
    A property that holds [undefined] reads as a missing one and is left out
    when the object is sent to the back end, so it is removed here. *)
Definition onChange_optional_number (field value : string) (config : Config)
    : Config :=
  let n := of_Number (parseInt value) in
  if truthy n then <[field := n]> config else delete field config.

(** The [onChange] handler of the startup order input:
    [setConfig({ ...config, startupOrder: parseInt(e.target.value) || 0 })]. *)
Definition onChange_startupOrder (value : string) (config : Config) : Config :=
  let n := of_Number (parseInt value) in
  <["startupOrder" := if truthy n then n else JNum 0]> config.

(** [loadServerConfig] of [ServerDetail.tsx]: the argument is the outcome of
    [invoke('get_server_config')]; the state is the [config] and the
    [message]. *)
Definition loadServerConfig (outcome : Promise jsval)
    (st : jsval * option string) : jsval * option string :=
  match outcome with
  | Resolved serverConfig => (serverConfig, st.2)
  | Rejected _ => (st.1, Some "Failed to load server configuration")
  end.

(** [resetConfig]: [loadServerConfig] handles its own failure, so the [try]
    never reaches its [catch]. *)
Definition resetConfig (outcome : Promise jsval) (st : jsval * option string)
    : jsval * option string :=
  let st := loadServerConfig outcome st in
  (st.1, Some "Configuration reset to saved values").

(** The banner is drawn in the error colours when
    [message.includes('Failed')]. *)
Definition drawn_as_error (message : string) : bool :=
  includes message "Failed".

End ServerDetail.

(** ** [src/components/Discover.tsx] *)

Module Discover.
Import JS.

Record MCPServerPackage := {
  name : string;
  description : string;
  version : string;
  author : string;
  keywords : list string;
  repository : option string;
  downloads : option Z;
  rating : option Z;
  installed : bool
}.

Definition set_installed (pkg : MCPServerPackage) : MCPServerPackage :=
  {| name := name pkg; description := description pkg;
     version := version pkg; author := author pkg; keywords := keywords pkg;
     repository := repository pkg; downloads := downloads pkg;
     rating := rating pkg; installed := true |}.

(** [installPackage], from the click to the [finally]: the argument is the
    outcome of [invoke('install_mcp_package')]; the result is the [packages]
    and [installing] states. *)
Definition installPackage (packageName : string) (outcome : Promise unit)
    (packages : list MCPServerPackage) (installing : gset string)
    : list MCPServerPackage * gset string :=
  let installing := installing ∪ {[packageName]} in
  let packages :=
    match outcome with
    | Resolved _ =>
        (λ pkg, if String.eqb (name pkg) packageName then set_installed pkg
                else pkg) <$> packages
    | Rejected _ => packages
    end in
  (packages, installing ∖ {[packageName]}).

End Discover.

(** * Properties *)

(** ** Substring search *)

Section StringFacts.
Import JS.

Lemma startsWith_spec (s t : string) :
  startsWith s t = true ↔ ∃ suf, s = String.append t suf.
Proof.
  revert s. induction t as [|b t IH]; intros s; simpl.
  - split; [intros _; by exists s | done].
  - destruct s as [|a s].
    + split; [done | intros [suf Hsuf]; discriminate].
    + rewrite andb_true_iff, IH. split.
      * intros [Hab [suf ->]]. apply Ascii.eqb_eq in Hab as ->. by exists suf.
      * intros [suf Hsuf]. injection Hsuf as -> ->.
        split; [apply Ascii.eqb_refl | by exists suf].
Qed.

Lemma includes_spec (s t : string) :
  includes s t = true ↔
  ∃ pre suf, s = String.append pre (String.append t suf).
Proof.
  induction s as [|a s IH].
  - simpl. rewrite orb_false_r, startsWith_spec. split.
    + intros [suf Hsuf]. by exists EmptyString, suf.
    + intros [pre [suf Hs]]. destruct pre; [by exists suf | discriminate].
  - cbn [includes]. rewrite orb_true_iff, startsWith_spec, IH. split.
    + intros [[suf Hsuf] | [pre [suf Hs]]].
      * by exists EmptyString, suf.
      * exists (String a pre), suf. simpl. by rewrite Hs.
    + intros [pre [suf Hs]]. destruct pre as [|c pre].
      * left. by exists suf.
      * right. simpl in Hs. injection Hs as -> Hs. by exists pre, suf.
Qed.

Example includes_examples :
  includes "Claude Desktop" "Desk" = true ∧
  includes "Claude Desktop" "" = true ∧
  includes "" "x" = false ∧
  includes (ascii_toLowerCase "Claude Desktop") (ascii_toLowerCase "DESK")
  = true.
Proof. by vm_compute. Qed.

Example parseInt_examples :
  parseInt "42" = Finite 42 ∧
  parseInt "  -7px" = Finite (-7) ∧
  parseInt "12.5" = Finite 12 ∧
  parseInt "0x1A" = Finite 26 ∧
  parseInt "-0" = Finite 0 ∧
  parseInt "" = NaN ∧
  parseInt "abc" = NaN ∧
  parseInt "0x" = NaN.
Proof. by vm_compute. Qed.

(** Beyond [2^53] the number read is the nearest double. *)
Example parseInt_rounds :
  parseInt "9007199254740992" = Finite 9007199254740992 ∧
  parseInt "9007199254740993" = Finite 9007199254740992 ∧
  parseInt "9007199254740995" = Finite 9007199254740996 ∧
  parseInt "-9007199254740993" = Finite (-9007199254740992) ∧
  parseInt "36028797018963967" = Finite 36028797018963968 ∧
  to_double (2 ^ 1024 - 2 ^ 970 - 1) = Finite (2 ^ 1024 - 2 ^ 971) ∧
  to_double (2 ^ 1024 - 2 ^ 970) = Infinity false ∧
  to_double (- 2 ^ 1024) = Infinity true.
Proof. by vm_compute. Qed.

(** A no-break space and an ideographic space in front of the digits are
    skipped like a blank. *)
Example parseInt_spaces :
  parseInt (String (ascii_of_nat 194) (String (ascii_of_nat 160) "15")) = Finite 15 ∧
  parseInt (String (ascii_of_nat 227) (String (ascii_of_nat 128)
             (String (ascii_of_nat 128) " 15"))) = Finite 15 ∧
  parseInt (String (ascii_of_nat 194) "15") = NaN.
Proof. by vm_compute. Qed.

Example get_examples :
  get (JArr [JBool false; JNull]) "0" = Some (JBool false) ∧
  get (JArr [JBool false; JNull]) "00" = None ∧
  get (JArr [JBool false; JNull]) "length" = Some (JNum 2) ∧
  get (JStr "ab") "1" = Some (JStr "b") ∧
  get (JObj {[ "Zed" := JBool false ]}) "Zed" = Some (JBool false) ∧
  get (JObj {[ "Zed" := JBool false ]}) "Cursor" = None.
Proof. by vm_compute. Qed.

Lemma ascii_toLowerCase_nil s : ascii_toLowerCase s = "" → s = "".
Proof. by destruct s. Qed.

End StringFacts.

(** A host to run the examples on: the lower-casing of ASCII text, and the
    wording V8 gives the error. *)
#[export] Instance sample_host : JS.Host :=
  {| JS.toLowerCase := JS.ascii_toLowerCase;
     JS.toLowerCase_ascii := λ _ _, eq_refl;
     JS.toLowerCase_nil := ascii_toLowerCase_nil;
     JS.null_read_error := λ k,
       "TypeError: Cannot read properties of null (reading '" ++ k ++ "')" |}.

(** ** The log filter *)

Section LogsFacts.
Import JS Logs.
Context `{Host}.

Lemma keeps_selected term lf cf log :
  keeps term lf cf log = true ↔ selected term lf cf log.
Proof.
  unfold keeps, selected, contains_ci.
  destruct (lf (level log)); simpl; [|split; [done | by intros [? _]]].
  destruct (cf (category log)); simpl; [|split; [done | by intros (_ & ? & _)]].
  destruct (String.eqb_spec term "") as [->|Hne]; simpl;
    [split; [intros _; by auto | done]|].
  rewrite <- !includes_spec.
  destruct (includes (toLowerCase (message log)) (toLowerCase term)) eqn:Hm;
    simpl; [split; [intros _; by auto | done]|].
  destruct (details log) as [d|]; simpl.
  - destruct (includes (toLowerCase d) (toLowerCase term)) eqn:Hd; simpl.
    + split; [|done]. intros _. do 2 (split; [done|]). right; right.
      exists d. by rewrite <- includes_spec.
    + split; [done|]. intros (_ & _ & [? | [? | (d' & [= <-] & Hd')]]);
        [done | done |]. apply includes_spec in Hd'. congruence.
  - split; [done|]. by intros (_ & _ & [? | [? | (d' & ? & _)]]).
Qed.

#[local] Instance selected_dec term lf cf log :
  Decision (selected term lf cf log).
Proof.
  refine (cast_if (decide (keeps term lf cf log = true)));
    by rewrite <- keeps_selected.
Defined.



End LogsFacts.


(** With the initial boxes the debug entry is hidden; a search for
    [CLAUDE] finds the entry that names Claude in its message. *)
Example filterLogs_sample :
  Logs.id <$> Logs.filterLogs sample_logs "" Logs.initialLevelFilters
                Logs.initialCategoryFilters = ["1"; "2"; "3"; "4"] ∧
  Logs.id <$> Logs.filterLogs sample_logs "CLAUDE" Logs.initialLevelFilters
                Logs.initialCategoryFilters = ["2"] ∧
  Logs.id <$> Logs.filterLogs sample_logs "claude" (λ _, true)
                Logs.initialCategoryFilters = ["2"; "5"] ∧
  Logs.id <$> Logs.filterLogs sample_logs "sync" Logs.initialLevelFilters
                Logs.initialCategoryFilters = ["4"] ∧
  Logs.filterLogs [disabled_log] "ENABLE" Logs.initialLevelFilters
    Logs.initialCategoryFilters = [disabled_log] ∧
  Logs.filterLogs [disabled_log] "sync" Logs.initialLevelFilters
    Logs.initialCategoryFilters = [].
Proof. by vm_compute. Qed.


(** ** Sorting *)

Section SortFacts.
Context {A : Type} (cmp : A → A → Z).

#[local] Abbreviation cmp_le := (JS.cmp_le cmp).

Lemma sort_insert_Permutation x l : JS.sort_insert cmp x l ≡ₚ x :: l.
Proof.
  induction l as [|y l IH]; simpl; [done|].
  destruct (cmp x y <=? 0)%Z; [done|].
  rewrite IH. apply Permutation_swap.
Qed.

Lemma sort_Permutation l : JS.sort cmp l ≡ₚ l.
Proof.
  induction l as [|x l IH]; simpl; [done|].
  by rewrite sort_insert_Permutation, IH.
Qed.

Lemma elem_of_sort x l : x ∈ JS.sort cmp l ↔ x ∈ l.
Proof. by rewrite sort_Permutation. Qed.

Context (cmp_total : ∀ a b, cmp_le a b ∨ cmp_le b a).
Context (cmp_trans : ∀ a b c, cmp_le a b → cmp_le b c → cmp_le a c).

Lemma sort_insert_sorted x l :
  StronglySorted cmp_le l → StronglySorted cmp_le (JS.sort_insert cmp x l).
Proof.
  induction 1 as [|y l Hl IH Hy]; simpl.
  - repeat constructor.
  - destruct (Z.leb_spec (cmp x y) 0) as [Hxy|Hxy].
    + constructor; [by constructor|]. constructor; [done|].
      eapply Forall_impl; [exact Hy|]. intros z Hz. by eapply cmp_trans.
    + constructor; [done|]. rewrite sort_insert_Permutation.
      constructor; [|done].
      destruct (cmp_total x y) as [Hle|Hle]; [|done]. unfold JS.cmp_le in Hle. lia.
Qed.

Lemma sort_sorted l : StronglySorted cmp_le (JS.sort cmp l).
Proof.
  induction l as [|x l IH]; simpl; [constructor|]. by apply sort_insert_sorted.
Qed.

End SortFacts.

Lemma StronglySorted_sublist {A : Type} (R : relation A) (l1 l2 : list A) :
  l1 `sublist_of` l2 → StronglySorted R l2 → StronglySorted R l1.
Proof.
  induction 1 as [|x l1 l2 Hsub IH|x l1 l2 Hsub IH]; intros Hs.
  - constructor.
  - apply StronglySorted_inv in Hs as [Hs Hx]. constructor; [by apply IH|].
    eapply Forall_forall. intros y Hy. eapply Forall_forall in Hx; [done|].
    by eapply sublist_subseteq.
  - apply StronglySorted_inv in Hs as [Hs _]. by apply IH.
Qed.

(** ** The consolidated view *)

Section ConsolidateFacts.
Import JS App.
Context `{Collator}.

Lemma consolidate_snoc l s :
  consolidate (l ++ [s]) = consolidate_step (consolidate l) s.
Proof. unfold consolidate. by rewrite foldl_snoc. Qed.

Lemma consolidate_step_names acc s :
  cs_name <$> consolidate_step acc s =
  if decide (name s ∈ cs_name <$> acc) then cs_name <$> acc
  else ((cs_name <$> acc) ++ [name s])%list.
Proof.
  unfold consolidate_step.
  destruct (list_find _ acc) as [[i x]|] eqn:Hfind.
  - apply list_find_Some in Hfind as (Hi & Hx & _).
    rewrite list_fmap_insert. simpl.
    rewrite list_insert_id by (by rewrite list_lookup_fmap, Hi).
    rewrite decide_True; [done|].
    rewrite <- Hx. apply list_elem_of_fmap. exists x. split; [done|].
    by eapply list_elem_of_lookup_2.
  - apply list_find_None in Hfind. rewrite fmap_app. simpl.
    rewrite decide_False; [done|].
    intros (x & Hx & Hin)%list_elem_of_fmap.
    eapply Forall_forall in Hfind; [|done]. done.
Qed.

Lemma consolidate_names_NoDup l : NoDup (cs_name <$> consolidate l).
Proof.
  induction l as [|s l IH] using rev_ind; [constructor|].
  rewrite consolidate_snoc, consolidate_step_names.
  case_decide; [done|]. apply NoDup_app. split_and!; [done| |apply NoDup_singleton].
  intros n Hn ->%list_elem_of_singleton. done.
Qed.

Lemma consolidate_names_elem l n :
  n ∈ cs_name <$> consolidate l ↔ n ∈ name <$> l.
Proof.
  induction l as [|s l IH] using rev_ind; [done|].
  rewrite consolidate_snoc, consolidate_step_names, fmap_app. simpl.
  case_decide as Hin; rewrite !elem_of_app, ?list_elem_of_singleton, IH;
    [|done].
  split; [by left|]. intros [?| ->]; [done|]. by apply IH.
Qed.

Lemma consolidate_names_sublist l :
  (cs_name <$> consolidate l) `sublist_of` (name <$> l).
Proof.
  induction l as [|s l IH] using rev_ind; [done|].
  rewrite consolidate_snoc, consolidate_step_names, fmap_app. simpl.
  case_decide; [by apply sublist_inserts_r | by apply sublist_app].
Qed.

Lemma filter_none {A : Type} (P : A → Prop) `{∀ x, Decision (P x)} l :
  (∀ x, x ∈ l → ¬ P x) → filter P l = [].
Proof.
  induction l as [|x l IH]; intros Hl; [done|].
  rewrite filter_cons_False by (apply Hl; left).
  apply IH. intros y Hy. apply Hl. by right.
Qed.

(** The applications of an entry are the records of that name, in the order
    of the reduced list. *)
Lemma consolidate_applications l e :
  e ∈ consolidate l →
  applications e = toAppEntry <$> filter (λ s, name s = cs_name e) l.
Proof.
  revert e. induction l as [|s l IH] using rev_ind; intros e.
  { intros Hin. by apply elem_of_nil in Hin. }
  rewrite consolidate_snoc, filter_app, fmap_app.
  pose proof (consolidate_names_NoDup l) as Hnd.
  unfold consolidate_step.
  destruct (list_find _ (consolidate l)) as [[i x]|] eqn:Hfind.
  - apply list_find_Some in Hfind as (Hi & Hx & _).
    intros (j & Hj)%list_elem_of_lookup.
    destruct (decide (i = j)) as [<-|Hij].
    + rewrite list_lookup_insert_eq in Hj by (by eapply lookup_lt_Some).
      injection Hj as <-. simpl.
      rewrite (IH x) by (by eapply list_elem_of_lookup_2).
      by rewrite filter_cons_True, filter_nil by done.
    + rewrite list_lookup_insert_ne in Hj by done.
      rewrite (IH e) by (by eapply list_elem_of_lookup_2).
      rewrite filter_cons_False, filter_nil; [by rewrite app_nil_r|].
      intros Hse. apply Hij. eapply NoDup_lookup; [exact Hnd| |].
      * by rewrite list_lookup_fmap, Hi.
      * rewrite list_lookup_fmap, Hj. simpl. congruence.
  - apply list_find_None in Hfind.
    intros [Hin | ->%list_elem_of_singleton]%elem_of_app.
    + rewrite (IH e) by done.
      rewrite filter_cons_False, filter_nil; [by rewrite app_nil_r|].
      intros Hse. eapply Forall_forall in Hfind; [|exact Hin]. done.
    + simpl. rewrite filter_cons_True, filter_nil by done.
      rewrite filter_none; [done|].
      intros s' Hs' Hname.
      assert (name s ∈ cs_name <$> consolidate l) as Hn.
      { apply consolidate_names_elem. rewrite <- Hname.
        apply list_elem_of_fmap. by exists s'. }
      apply list_elem_of_fmap in Hn as (x & Hx & Hxin).
      eapply Forall_forall in Hfind; [|exact Hxin]. done.
Qed.

(** The number of entries is the number of distinct names reduced. *)
Lemma consolidate_length l :
  length (consolidate l) = size (list_to_set (name <$> l) : gset string).
Proof.
  rewrite <- (length_fmap cs_name).
  rewrite <- (size_list_to_set (C:=gset string)) by apply consolidate_names_NoDup.
  f_equal. apply set_eq. intros n.
  by rewrite !elem_of_list_to_set, consolidate_names_elem.
Qed.

End ConsolidateFacts.

(** ** Collation *)

Section CollatorFacts.
Import JS App.
Context `{Collator}.

Lemma localeCompare_flip x y :
  ((localeCompare x y < 0 ↔ 0 < localeCompare y x) ∧
   (localeCompare x y = 0 ↔ localeCompare y x = 0))%Z.
Proof.
  pose proof (localeCompare_antisym x y) as Hxy.
  destruct (localeCompare x y), (localeCompare y x); simpl in Hxy;
    (discriminate || (split; split; intros; lia)).
Qed.

Lemma localeCompare_refl x : localeCompare x x = 0%Z.
Proof.
  pose proof (localeCompare_antisym x x) as Hx.
  destruct (localeCompare x x); simpl in Hx; (done || discriminate).
Qed.

Lemma compareServers_le a b :
  cmp_le compareServers a b ↔
  (localeCompare (name a) (name b) < 0 ∨
   localeCompare (name a) (name b) = 0 ∧
   localeCompare (application a) (application b) <= 0)%Z.
Proof.
  unfold cmp_le, compareServers.
  destruct (Z.eqb_spec (localeCompare (name a) (name b)) 0) as [->|Hne];
    simpl; lia.
Qed.

Lemma compareServers_total a b :
  cmp_le compareServers a b ∨ cmp_le compareServers b a.
Proof.
  rewrite !compareServers_le.
  pose proof (localeCompare_flip (name a) (name b)).
  pose proof (localeCompare_flip (application a) (application b)).
  lia.
Qed.

Lemma compareServers_trans a b c :
  cmp_le compareServers a b → cmp_le compareServers b c →
  cmp_le compareServers a c.
Proof.
  rewrite !compareServers_le. intros Hab Hbc.
  pose proof (localeCompare_flip (name a) (name b)).
  pose proof (localeCompare_flip (name b) (name c)).
  pose proof (localeCompare_flip (name a) (name c)).
  pose proof (localeCompare_trans (name a) (name b) (name c)).
  pose proof (localeCompare_trans (name c) (name a) (name b)).
  pose proof (localeCompare_trans (name b) (name c) (name a)).
  pose proof (localeCompare_trans (application a) (application b)
                (application c)).
  lia.
Qed.

Lemma sortedServers_sorted serversData :
  StronglySorted (cmp_le compareServers) (sortedServers serversData).
Proof.
  apply sort_sorted; [apply compareServers_total | apply compareServers_trans].
Qed.

Lemma filteredServers_sorted eas l :
  StronglySorted (cmp_le compareServers) l →
  StronglySorted (cmp_le compareServers) (filteredServers eas l).
Proof. apply StronglySorted_sublist, sublist_filter. Qed.

Lemma sorted_names l :
  StronglySorted (cmp_le compareServers) l →
  StronglySorted alphabetical (name <$> l).
Proof.
  apply StronglySorted_fmap. intros a b Hab%compareServers_le.
  unfold alphabetical. lia.
Qed.

Lemma sorted_applications n l :
  StronglySorted (cmp_le compareServers) l →
  StronglySorted alphabetical
    (application <$> filter (λ s, name s = n) l).
Proof.
  induction 1 as [|a l Hl IH Ha]; [constructor|].
  destruct (decide (name a = n)) as [Hn|Hn].
  - rewrite filter_cons_True by done. simpl. constructor; [done|].
    apply Forall_fmap, Forall_forall. intros b [Hb Hin]%list_elem_of_filter.
    eapply Forall_forall in Ha; [|exact Hin].
    apply compareServers_le in Ha. simpl. unfold alphabetical.
    rewrite Hn, Hb, localeCompare_refl in Ha. lia.
  - by rewrite filter_cons_False.
Qed.

End CollatorFacts.

(** The code-unit comparison is a collator. *)

Lemma codeunit_compare_antisym x y :
  Z.sgn (App.codeunit_compare y x) = (- Z.sgn (App.codeunit_compare x y))%Z.
Proof.
  revert y. induction x as [|a x IH]; intros [|b y]; simpl; try done.
  destruct (Z.eqb_spec (Z.of_nat (nat_of_ascii a) - Z.of_nat (nat_of_ascii b)) 0),
           (Z.eqb_spec (Z.of_nat (nat_of_ascii b) - Z.of_nat (nat_of_ascii a)) 0);
    try lia.
  apply IH.
Qed.

Lemma codeunit_compare_trans x y z :
  (App.codeunit_compare x y <= 0 → App.codeunit_compare y z <= 0 →
   App.codeunit_compare x z <= 0)%Z.
Proof.
  revert y z. induction x as [|a x IH]; intros [|b y] [|c z]; simpl; try lia.
  destruct (Z.eqb_spec (Z.of_nat (nat_of_ascii a) - Z.of_nat (nat_of_ascii b)) 0),
           (Z.eqb_spec (Z.of_nat (nat_of_ascii b) - Z.of_nat (nat_of_ascii c)) 0),
           (Z.eqb_spec (Z.of_nat (nat_of_ascii a) - Z.of_nat (nat_of_ascii c)) 0);
    try lia.
  apply IH.
Qed.

#[export] Instance codeunit_collator : App.Collator :=
  {| App.localeCompare := App.codeunit_compare;
     App.localeCompare_antisym := codeunit_compare_antisym;
     App.localeCompare_trans := codeunit_compare_trans |}.

(** ** The dashboard pipeline of [loadData] *)

Section RebuildFacts.
Import JS App.
Context `{Collator} `{Host}.

Lemma is_not_false_spec v : is_not_false v = true ↔ v ≠ Some (JBool false).
Proof. destruct v as [[| [|] | | | | | |]|]; simpl; split; congruence. Qed.

Lemma get_empty_string k : is_not_false (get (JStr "") k) = true.
Proof. simpl. by destruct (String.eqb k "length"). Qed.

Lemma appShown_spec settingsData eas server :
  enabledAppsSettings settingsData = Some eas →
  appShown eas server =
  is_not_false (get_path settingsData ["enabledApps"; application server]).
Proof.
  unfold enabledAppsSettings, appShown. cbn [get_path].
  intros Heas.
  assert (Some eas =
          Some match get settingsData "enabledApps" with
               | Some v => if truthy v then v else JObj ∅
               | None => JObj ∅
               end) as [= ->].
  { destruct settingsData; (done || by rewrite Heas). }
  clear Heas.
  destruct (get settingsData "enabledApps") as [v|]; simpl; [|done].
  destruct (truthy v) eqn:Hv.
  - by destruct (get v (application server)).
  - replace (get (JObj ∅) (application server)) with (@None jsval)
      by (simpl; by rewrite lookup_empty).
    destruct v as [| [|] | z | | n | s | |]; simpl in Hv; try done.
    apply negb_false_iff, String.eqb_eq in Hv as ->.
    pose proof (get_empty_string (application server)) as Hs.
    destruct (get (JStr "") (application server)) as [v|]; done.
Qed.

(** C9. The application filter keeps a server exactly when
    [settings.enabledApps] does not map the server's application to [false];
    an application with no entry in [enabledApps] is shown. *)
Theorem filteredServers_iff_not_disabled settingsData eas
    (servers : list MCPServer) :
  enabledAppsSettings settingsData = Some eas →
  (∀ server,
      server ∈ filteredServers eas servers ↔
      server ∈ servers ∧
      get_path settingsData ["enabledApps"; application server]
        ≠ Some (JBool false)) ∧
  (∀ server,
      server ∈ servers →
      get_path settingsData ["enabledApps"; application server] = None →
      server ∈ filteredServers eas servers).
Proof.
  intros Heas.
  assert (∀ server,
      server ∈ filteredServers eas servers ↔
      server ∈ servers ∧
      get_path settingsData ["enabledApps"; application server]
        ≠ Some (JBool false)) as Hiff.
  { intros server. unfold filteredServers.
    rewrite list_elem_of_filter, (appShown_spec settingsData) by done.
    rewrite <- is_not_false_spec, Is_true_true. tauto. }
  split; [done|]. intros server Hin Hnone. apply Hiff.
  split; [done|]. by rewrite Hnone.
Qed.

Lemma rebuild_resolved serversData settingsData eas :
  enabledAppsSettings settingsData = Some eas →
  rebuild serversData settingsData =
  Resolved (consolidate (filteredServers eas (sortedServers serversData))).
Proof. unfold rebuild. by intros ->. Qed.

Lemma rebuild_inv serversData settingsData consolidated :
  rebuild serversData settingsData = Resolved consolidated →
  ∃ eas,
    enabledAppsSettings settingsData = Some eas ∧
    consolidated = consolidate (filteredServers eas (sortedServers serversData)).
Proof.
  unfold rebuild. destruct (enabledAppsSettings settingsData) as [eas|];
    [|done]. intros [= <-]. by exists eas.
Qed.

Lemma filtered_sorted_names eas serversData :
  (list_to_set (name <$> filteredServers eas (sortedServers serversData))
     : gset string) =
  list_to_set (name <$> filter (λ s, appShown eas s) serversData).
Proof.
  apply set_eq. intros n. rewrite !elem_of_list_to_set, !list_elem_of_fmap.
  unfold filteredServers, sortedServers.
  by setoid_rewrite list_elem_of_filter; setoid_rewrite elem_of_sort.
Qed.

(** C2, as the code has it.  The consolidated view has exactly as many
    entries as there are distinct server names among the records whose
    application the settings do not disable; when the settings disable none
    of the applications, that is the number of distinct server names across
    all applications. *)
Theorem rebuild_entry_count serversData settingsData eas :
  enabledAppsSettings settingsData = Some eas →
  ∃ consolidated,
    rebuild serversData settingsData = Resolved consolidated ∧
    length consolidated =
      size (list_to_set (name <$> filter (λ s, appShown eas s) serversData)
              : gset string) ∧
    ((∀ s, s ∈ serversData → appShown eas s = true) →
     length consolidated =
       size (list_to_set (name <$> serversData) : gset string)).
Proof.
  intros Heas. eexists. split; [by apply rebuild_resolved|].
  rewrite consolidate_length, filtered_sorted_names. split; [done|].
  intros Hall. do 3 f_equal. induction serversData as [|s l IH]; [done|].
  rewrite filter_cons_True by (apply Is_true_true, Hall; left).
  f_equal. apply IH. intros s' Hs'. apply Hall. by right.
Qed.

(** C3. The consolidated view is ordered: the entries come in alphabetical
    order of server name, each name once, and within each entry the
    applications come in alphabetical order of application name. *)
Theorem rebuild_ordered serversData settingsData consolidated :
  rebuild serversData settingsData = Resolved consolidated →
  StronglySorted alphabetical (cs_name <$> consolidated) ∧
  NoDup (cs_name <$> consolidated) ∧
  Forall (λ e, StronglySorted alphabetical (entry_name <$> applications e))
         consolidated.
Proof.
  intros (eas & _ & ->)%rebuild_inv.
  pose proof (filteredServers_sorted eas _ (sortedServers_sorted serversData))
    as Hsorted.
  split_and!.
  - eapply StronglySorted_sublist; [apply consolidate_names_sublist|].
    by apply sorted_names.
  - apply consolidate_names_NoDup.
  - apply Forall_forall. intros e He.
    rewrite (consolidate_applications _ e He), <- list_fmap_compose.
    by apply (sorted_applications (cs_name e)).
Qed.

End RebuildFacts.

Lemma filteredServers_iff_not_disabled_witness :
  sample_server "weather" "Cursor" true
    ∈ App.filteredServers (JS.JObj {[ "Zed" := JS.JBool false ]})
        sample_servers ∧
  sample_server "broken" "Zed" false
    ∉ App.filteredServers (JS.JObj {[ "Zed" := JS.JBool false ]})
        sample_servers.
Proof.
  destruct (filteredServers_iff_not_disabled settings_hiding_zed
              (JS.JObj {[ "Zed" := JS.JBool false ]}) sample_servers eq_refl)
    as [Hiff Hmissing].
  split.
  - apply Hmissing; [left | reflexivity].
  - rewrite Hiff. intros [_ Hne]. by apply Hne.
Defined.

(** C2, as stated, fails: with Zed disabled in the settings, the server
    names that only Zed holds have no entry in the consolidated view. *)
Lemma rebuild_entry_count_counterexample :
  ∃ consolidated,
    App.rebuild sample_servers settings_hiding_zed = JS.Resolved consolidated ∧
    length consolidated = 2 ∧
    size (list_to_set (Types.name <$> sample_servers) : gset string) = 3 ∧
    length consolidated
      ≠ size (list_to_set (Types.name <$> sample_servers) : gset string).
Proof.
  eexists. split; [reflexivity|]. split_and!; vm_compute; (reflexivity || lia).
Qed.

Lemma rebuild_entry_count_witness :
  ∃ consolidated,
    App.rebuild sample_servers settings_without_enabledApps
      = JS.Resolved consolidated ∧
    length consolidated =
      size (list_to_set
              (Types.name <$> filter (λ s, App.appShown (JS.JObj ∅) s)
                                     sample_servers) : gset string) ∧
    ((∀ s, s ∈ sample_servers → App.appShown (JS.JObj ∅) s = true) →
     length consolidated =
       size (list_to_set (Types.name <$> sample_servers) : gset string)).
Proof.
  apply (rebuild_entry_count sample_servers settings_without_enabledApps
           (JS.JObj ∅)).
  reflexivity.
Defined.

Lemma rebuild_ordered_witness :
  let consolidated :=
    App.consolidate
      (App.filteredServers (JS.JObj ∅) (App.sortedServers sample_servers)) in
  StronglySorted App.alphabetical (App.cs_name <$> consolidated) ∧
  NoDup (App.cs_name <$> consolidated) ∧
  Forall (λ e, StronglySorted App.alphabetical
                 (App.entry_name <$> App.applications e)) consolidated.
Proof.
  apply (rebuild_ordered sample_servers settings_without_enabledApps).
  reflexivity.
Defined.

(** The consolidated view of the sample, with every application shown. *)
Example rebuild_sample :
  App.rebuild sample_servers settings_without_enabledApps =
  JS.Resolved
    [ {| App.cs_name := "broken";
         App.applications :=
           [ App.toAppEntry (sample_server "broken" "Zed" false) ] |};
      {| App.cs_name := "filesystem";
         App.applications :=
           [ App.toAppEntry (sample_server "filesystem" "Claude Desktop" false);
             App.toAppEntry (sample_server "filesystem" "Zed" true) ] |};
      {| App.cs_name := "weather";
         App.applications :=
           [ App.toAppEntry (sample_server "weather" "Claude Desktop" true);
             App.toAppEntry (sample_server "weather" "Cursor" true) ] |} ].
Proof. vm_compute. reflexivity. Qed.

(** ** Loading the settings *)

Section SettingsFacts.
Import JS Settings.

Lemma loadSettings_present savedSettings k v :
  own_props savedSettings !! k = Some v →
  loadSettings (inr savedSettings) !! k = Some v.
Proof. intros Hv. simpl. unfold spread2. by apply lookup_union_Some_l. Qed.

Lemma loadSettings_missing savedSettings k :
  own_props savedSettings !! k = None →
  loadSettings (inr savedSettings) !! k = defaultSettings !! k.
Proof. intros Hnone. simpl. unfold spread2. by apply lookup_union_r. Qed.

(** C6, as the code has it.  The loaded settings hold, for every top-level
    field, the persisted value when the persisted document has the field and
    the hard-coded default when it has not; a field that is present is taken
    whole, so an object such as [enabledApps] replaces the default object
    instead of being merged with it.  When the read fails the defaults are
    loaded. *)
Theorem loadSettings_top_level savedSettings k :
  let settings := loadSettings (inr savedSettings) in
  (∀ v, own_props savedSettings !! k = Some v → settings !! k = Some v) ∧
  (own_props savedSettings !! k = None →
   settings !! k = defaultSettings !! k) ∧
  (∀ e, loadSettings (inl e) = defaultSettings).
Proof.
  split_and!.
  - apply loadSettings_present.
  - apply loadSettings_missing.
  - done.
Qed.

Lemma loadSettings_top_level_witness :
  let settings := loadSettings (inr partial_enabledApps) in
  settings !! "enabledApps" = Some (JObj {[ "Cursor" := JBool false ]}) ∧
  settings !! "theme" = Some (JStr "system").
Proof.
  pose proof (loadSettings_top_level partial_enabledApps "enabledApps")
    as (Hpresent & _ & _).
  pose proof (loadSettings_top_level partial_enabledApps "theme")
    as (_ & Hmissing & _).
  split; [by apply Hpresent | by rewrite Hmissing].
Defined.

(** C6, as stated, fails for a nested field: a persisted [enabledApps] that
    lacks an application is loaded as it is, and the application's default
    is not filled in. *)
Lemma loadSettings_nested_counterexample :
  let path := ["enabledApps"; "Claude Desktop"] in
  get_path partial_enabledApps path = None ∧
  get_path (JObj defaultSettings) path = Some (JBool true) ∧
  get_path (JObj (loadSettings (inr partial_enabledApps))) path = None.
Proof. by vm_compute. Qed.

End SettingsFacts.

(** ** The synchronization engine *)

Section EngineFacts.
Import Engine.
Context {Content Hash : Type} `{EqDecision Hash}.
Context (contentHash : Content → Hash).
Context (parse : Content → option (list MCPServer)).
Context (serialize : list MCPServer → Content).
Context (retention : nat).

#[local] Abbreviation State := (@State Content Hash).

Lemma read_ok appName (st st1 : State) :
  read contentHash parse appName st = (Ok, st1) →
  ∃ content,
    files st !! appName = Some content ∧
    files st1 = files st ∧
    records st1 !! appName = Some (contentHash content).
Proof.
  unfold read. destruct (files st !! appName) as [content|]; [|done].
  destruct (parse content); [|done]. intros [= <-]. exists content. simpl.
  by rewrite lookup_insert_eq.
Qed.

(** A toggle touches neither the disk nor the SyncRecords. *)
Lemma toggle_disk serverName appName enabled (st : State) :
  files (toggle serverName appName enabled st).2 = files st ∧
  records (toggle serverName appName enabled st).2 = records st.
Proof.
  unfold toggle. destruct (registry st !! appName) as [servers|]; [|done].
  destruct (list_find _ servers) as [[i s]|]; [|done].
  by case_decide.
Qed.

Lemma toggles_disk reqs (st : State) :
  files (toggles reqs st) = files st ∧ records (toggles reqs st) = records st.
Proof.
  revert st. induction reqs as [|[[serverName appName] enabled] reqs IH];
    intros st; [done|].
  unfold toggles in *. simpl.
  destruct (IH (toggle serverName appName enabled st).2) as [-> ->].
  apply toggle_disk.
Qed.

(** A SyncRecord that differs from the hash of what is on disk makes
    [syncOne] stop at the comparison. *)
Lemma syncOne_mismatch appName (st : State) current recorded :
  files st !! appName = Some current →
  records st !! appName = Some recorded →
  contentHash current ≠ recorded →
  syncOne contentHash serialize retention appName st =
  (Err WriteConflictError, set_status appName conflict st).
Proof.
  intros Hf Hr Hne. unfold syncOne. rewrite Hf, Hr. by rewrite decide_False.
Qed.

(** C1. After a successful read of an application, and whatever toggles are
    then applied in memory, an out-of-band modification of the application's
    file (new content, with a hash other than the one recorded at the read)
    makes the next [syncOne] report a write conflict: the application's
    syncStatus becomes [conflict], every file on disk, the modified one
    included, is left as it was, and the in-memory servers are kept. *)
Theorem syncOne_detects_conflict appName (st st1 : State) reqs content' :
  read contentHash parse appName st = (Ok, st1) →
  (∀ content, files st !! appName = Some content →
              contentHash content' ≠ contentHash content) →
  let st2 := external_write appName content' (toggles reqs st1) in
  let r := syncOne contentHash serialize retention appName st2 in
  r.1 = Err WriteConflictError ∧
  status r.2 !! appName = Some conflict ∧
  files r.2 = files st2 ∧
  files r.2 !! appName = Some content' ∧
  registry r.2 = registry (toggles reqs st1) ∧
  records r.2 = records st1.
Proof.
  intros (content & Hf & Hfiles & Hrec)%read_ok Hmod. simpl.
  destruct (toggles_disk reqs st1) as [Htf Htr].
  rewrite (syncOne_mismatch appName _ content' (contentHash content)); simpl.
  - by rewrite !lookup_insert_eq.
  - by rewrite lookup_insert_eq.
  - by rewrite Htr.
  - by apply Hmod.
Qed.

Lemma list_find_insert_same {A : Type} (P : A → Prop) `{∀ x, Decision (P x)}
    (l : list A) i x y :
  list_find P l = Some (i, x) → P y → list_find P (<[i := y]> l) = Some (i, y).
Proof.
  intros (Hi & Hx & Hlt)%list_find_Some Hy. apply list_find_Some. split_and!.
  - apply list_lookup_insert_eq. by eapply lookup_lt_Some.
  - done.
  - intros j z Hj Hji. rewrite list_lookup_insert_ne in Hj by lia.
    by eapply Hlt.
Qed.

(** C4. A toggle to the value the entry already has returns without error
    and leaves the whole state, the registry and the syncStatus included, as
    it was; so a toggle applied twice does what it does applied once. *)
Theorem toggle_idempotent serverName appName v (st : State) :
  (∀ servers i s,
      registry st !! appName = Some servers →
      list_find (λ s, name s = serverName) servers = Some (i, s) →
      enabled s = v →
      toggle serverName appName v st = (Ok, st)) ∧
  toggle serverName appName v (toggle serverName appName v st).2 =
  toggle serverName appName v st.
Proof.
  split.
  - intros servers i s Hreg Hfind Hv. unfold toggle.
    by rewrite Hreg, Hfind, decide_True.
  - unfold toggle at 2 3.
    destruct (registry st !! appName) as [servers|] eqn:Hreg; simpl.
    2: { unfold toggle. by rewrite Hreg. }
    destruct (list_find _ servers) as [[i s]|] eqn:Hfind; simpl.
    2: { unfold toggle. by rewrite Hreg, Hfind. }
    case_decide as Hv; simpl.
    { unfold toggle. by rewrite Hreg, Hfind, decide_True. }
    unfold toggle. simpl. rewrite lookup_insert_eq.
    erewrite list_find_insert_same; [|exact Hfind|by apply list_find_Some in
      Hfind as (_ & ? & _)].
    by rewrite decide_True.
Qed.

End EngineFacts.

Lemma syncOne_detects_conflict_witness :
  let st2 :=
    Engine.external_write "Cursor" Demo.edited_elsewhere
      (Engine.toggles [("filesystem", "Cursor", false)] Demo.after_read) in
  let r := Engine.syncOne Demo.contentHash Demo.serialize Demo.retention
             "Cursor" st2 in
  r.1 = Engine.Err Engine.WriteConflictError ∧
  Engine.status r.2 !! "Cursor" = Some Types.conflict ∧
  Engine.files r.2 = Engine.files st2 ∧
  Engine.files r.2 !! "Cursor" = Some Demo.edited_elsewhere ∧
  Engine.registry r.2 =
    Engine.registry
      (Engine.toggles [("filesystem", "Cursor", false)] Demo.after_read) ∧
  Engine.records r.2 = Engine.records Demo.after_read.
Proof.
  apply (syncOne_detects_conflict Demo.contentHash Demo.parse Demo.serialize
           Demo.retention "Cursor" Demo.on_disk Demo.after_read).
  - reflexivity.
  - intros content Hc. vm_compute in Hc. injection Hc as <-. vm_compute. lia.
Defined.

Lemma toggle_idempotent_witness :
  Engine.toggle "filesystem" "Cursor" true Demo.after_read
  = (Engine.Ok, Demo.after_read).
Proof.
  apply (proj1 (toggle_idempotent "filesystem" "Cursor" true Demo.after_read)
           [sample_server "filesystem" "Cursor" true] 0
           (sample_server "filesystem" "Cursor" true));
    reflexivity.
Defined.

(** The scenario of the specification: the server is disabled, synchronized,
    and re-read. *)
Example toggle_then_sync :
  let st := (Engine.toggle "filesystem" "Cursor" false Demo.after_read).2 in
  Engine.status st !! "Cursor" = Some Types.pending ∧
  let r := Engine.syncOne Demo.contentHash Demo.serialize Demo.retention
             "Cursor" st in
  r.1 = Engine.Ok ∧
  Engine.status r.2 !! "Cursor" = Some Types.synced ∧
  Engine.files r.2 !! "Cursor"
    = Some [sample_server "filesystem" "Cursor" false] ∧
  Engine.backups r.2 !! "Cursor"
    = Some [[sample_server "filesystem" "Cursor" true]].
Proof. vm_compute. auto. Qed.

(** The front end's handler on the conflict of the scenario above: the
    rejection becomes the error shown, and the disk is as the other program
    left it. *)
Example handleSyncApplication_conflict :
  let st2 :=
    Engine.external_write "Cursor" Demo.edited_elsewhere
      (Engine.toggles [("filesystem", "Cursor", false)] Demo.after_read) in
  let r := App.handleSyncApplication Demo.backend [] "Cursor" Demo.ui st2 in
  App.error r.1 = Some "Failed to sync Cursor: WriteConflictError" ∧
  Engine.files r.2 !! "Cursor" = Some Demo.edited_elsewhere ∧
  Engine.status r.2 !! "Cursor" = Some Types.conflict.
Proof. by vm_compute. Qed.

(** ** Which rejection [Promise.all] reports *)

Section PromiseFacts.
Import JS.

Lemma head_omap_None {A B : Type} (f : A → option B) (l : list A) :
  head (omap f l) = None ↔ ∀ x, x ∈ l → f x = None.
Proof.
  induction l as [|a l IH]; simpl.
  - split; [|done]. intros _ x Hx. by apply elem_of_nil in Hx.
  - destruct (f a) as [y|] eqn:Ha; simpl.
    + split; [done|]. intros Hall. rewrite Hall in Ha; [done | by left].
    + rewrite IH. split.
      * intros Hall x Hx. apply elem_of_cons in Hx as [->|Hx]; auto.
      * intros Hall x Hx. apply Hall. by right.
Qed.

Lemma head_omap_Some {A B : Type} (f : A → option B) (l : list A) (y : B) :
  head (omap f l) = Some y ↔
  ∃ k x, l !! k = Some x ∧ f x = Some y ∧
         ∀ k' x', k' < k → l !! k' = Some x' → f x' = None.
Proof.
  induction l as [|a l IH]; simpl.
  - split; [done|]. by intros (k & x & Hk & _).
  - destruct (f a) as [y'|] eqn:Ha; simpl.
    + split.
      * intros [= ->]. exists 0, a. split_and!; [done|done|]. intros; lia.
      * intros (k & x & Hk & Hx & Hbefore). destruct k as [|k].
        -- simpl in Hk. injection Hk as ->. congruence.
        -- specialize (Hbefore 0 a ltac:(lia) eq_refl). congruence.
    + rewrite IH. split.
      * intros (k & x & Hk & Hx & Hbefore). exists (S k), x.
        split_and!; [done|done|]. intros [|k'] x' Hlt Hx'; simpl in Hx'.
        -- by injection Hx' as <-.
        -- apply (Hbefore k' x'); [lia|done].
      * intros (k & x & Hk & Hx & Hbefore). destruct k as [|k]; simpl in Hk.
        -- injection Hk as ->. congruence.
        -- exists k, x. split_and!; [done|done|].
           intros k' x' Hlt Hx'. apply (Hbefore (S k') x'); [lia|done].
Qed.

Context {A : Type}.
Implicit Types (ps : list (Promise A)) (settled : list nat).

Lemma rejection_lookup ps i e :
  ps !! i ≫= rejection = Some e ↔ ps !! i = Some (Rejected e).
Proof. destruct (ps !! i) as [[a|e']|]; simpl; split; congruence. Qed.

Lemma rejection_lookup_None ps i :
  ps !! i ≫= rejection = None ↔ ∀ e, ps !! i ≠ Some (Rejected e).
Proof.
  destruct (ps !! i) as [[a|e']|]; simpl; split; try congruence.
  intros Hne. by destruct (Hne e').
Qed.

(** [first_rejection] is the reason of the rejected promise that settles
    first. *)
Lemma first_rejection_spec settled ps e :
  first_rejection settled ps = Some e ↔ ∃ i, rejects_first settled ps i e.
Proof.
  unfold first_rejection, rejects_first. rewrite head_omap_Some. split.
  - intros (k & i & Hk & Hi & Hbefore). exists i.
    split; [by apply rejection_lookup|]. exists k. split; [done|].
    intros k' j Hlt Hj. apply rejection_lookup_None. by apply (Hbefore k').
  - intros (i & Hi & k & Hk & Hbefore). exists k, i.
    split_and!; [done | by apply rejection_lookup |].
    intros k' j Hlt Hj. apply rejection_lookup_None. by apply (Hbefore k').
Qed.

(** No rejection is reported exactly when every promise is fulfilled. *)
Lemma first_rejection_None settled ps :
  first_rejection settled ps = None ↔ ∀ p, p ∈ ps → ∃ a, p = Resolved a.
Proof.
  unfold first_rejection, settle_order. rewrite head_omap_None. split.
  - intros Hall p Hp. apply list_elem_of_lookup in Hp as [i Hi].
    assert (i ∈ (settled ++ seq 0 (length ps))%list) as Hin.
    { apply elem_of_app. right. apply elem_of_seq.
      apply lookup_lt_Some in Hi. lia. }
    specialize (Hall i Hin). rewrite Hi in Hall.
    destruct p as [a|e]; [by exists a | done].
  - intros Hall i _. destruct (ps !! i) as [p|] eqn:Hi; [|done].
    destruct (Hall p) as [a ->]; [|done]. by eapply list_elem_of_lookup_2.
Qed.

Lemma first_rejection_exists settled ps :
  (∃ i e, ps !! i = Some (Rejected e)) → ∃ i e, rejects_first settled ps i e.
Proof.
  intros (i & e & Hi).
  destruct (first_rejection settled ps) as [e'|] eqn:Hfirst.
  - apply first_rejection_spec in Hfirst as [j Hj]. by exists j, e'.
  - destruct (proj1 (first_rejection_None settled ps) Hfirst (Rejected e))
      as [a Ha]; [|done].
    by eapply list_elem_of_lookup_2.
Qed.

Lemma Promise_all_resolved settled ps :
  (∀ p, p ∈ ps → ∃ a, p = Resolved a) →
  Promise_all settled ps = Resolved (omap fulfilment ps).
Proof.
  intros Hall. unfold Promise_all.
  by rewrite (proj2 (first_rejection_None settled ps) Hall).
Qed.

Lemma Promise_all_rejected settled ps i e :
  rejects_first settled ps i e → Promise_all settled ps = Rejected e.
Proof.
  intros Hi. unfold Promise_all.
  by rewrite (proj2 (first_rejection_spec settled ps e) (ex_intro _ i Hi)).
Qed.

(** With no order given the promises settle in the order of the list, and
    the rejection reported is the first of the list. *)
Lemma rejects_first_in_order ps i e :
  rejects_first [] ps i e ↔
  ps !! i = Some (Rejected e) ∧
  ∀ j p, j < i → ps !! j = Some p → ∃ a, p = Resolved a.
Proof.
  unfold rejects_first, settle_order. simpl. split.
  - intros (Hi & k & Hk & Hbefore). split; [done|].
    pose proof (lookup_lt_Some _ _ _ Hi) as Hlen.
    apply lookup_seq in Hk as [-> _]. simpl in *.
    intros j p Hj Hp. specialize (Hbefore j j Hj).
    rewrite lookup_seq_lt in Hbefore by lia.
    specialize (Hbefore eq_refl).
    destruct p as [a|e']; [by exists a | by destruct (Hbefore e')].
  - intros (Hi & Hbefore). split; [done|]. exists i.
    pose proof (lookup_lt_Some _ _ _ Hi) as Hlen.
    split; [by rewrite lookup_seq_lt|].
    intros k' j Hlt Hj e' Hj'. apply lookup_seq in Hj as [-> _]. simpl in *.
    by destruct (Hbefore k' (Rejected e') Hlt Hj').
Qed.

End PromiseFacts.

(** ** Toggling a server in all its applications *)

Section HandlerFacts.
Import JS App.
Context `{Collator} `{Host} {B : Type} (backend : Backend B).

Lemma invoke_toggles_state serverName enabled apps b :
  (invoke_toggles backend serverName enabled apps b).2 =
  after_toggles backend serverName enabled apps b.
Proof.
  revert b. induction apps as [|app apps IH]; intros b; [done|].
  simpl. destruct (toggle_server backend _ _ _ b) as [p b1] eqn:Hp.
  specialize (IH b1).
  by destruct (invoke_toggles backend _ _ apps b1) as [ps b2].
Qed.

Lemma invoke_toggles_lookup serverName enabled apps b i app :
  apps !! i = Some app →
  (invoke_toggles backend serverName enabled apps b).1 !! i =
  Some (toggle_server backend serverName (entry_name app) enabled
          (after_toggles backend serverName enabled (take i apps) b)).1.
Proof.
  revert b i. induction apps as [|app0 apps IH]; intros b i Hi; [done|].
  simpl. destruct (toggle_server backend _ _ _ b) as [p b1] eqn:Hp.
  specialize (IH b1).
  destruct (invoke_toggles backend _ _ apps b1) as [ps b2]. simpl in *.
  destruct i as [|i]; simpl in *.
  - injection Hi as <-. unfold after_toggles. simpl. by rewrite Hp.
  - rewrite (IH i Hi). unfold after_toggles. simpl. by rewrite Hp.
Qed.

Lemma invoke_toggles_length serverName enabled apps b :
  length (invoke_toggles backend serverName enabled apps b).1 = length apps.
Proof.
  revert b. induction apps as [|app apps IH]; intros b; [done|].
  simpl. destruct (toggle_server backend _ _ _ b) as [p b1].
  specialize (IH b1).
  destruct (invoke_toggles backend _ _ apps b1) as [ps b2]. simpl in *.
  by rewrite IH.
Qed.

(** C5, as the code has it.  [handleToggleAllApps] issues one toggle for
    every application entry of the server, each served on the state the
    earlier ones left, whatever they returned: a failure neither stops the
    later toggles nor undoes the earlier ones.  The outcome is reported as a
    whole: when every toggle succeeds the data is reloaded; otherwise the
    error state is set to the reason of the rejection that settles first,
    whichever application it belongs to, and the data is not reloaded. *)
Theorem handleToggleAllApps_outcome settled settled' serverName enabled ui b
    server :
  List.find (λ s, String.eqb (cs_name s) serverName) (consolidatedServers ui)
    = Some server →
  let apps := applications server in
  let ps := (invoke_toggles backend serverName enabled apps b).1 in
  let b' := after_toggles backend serverName enabled apps b in
  length ps = length apps ∧
  (∀ i app, apps !! i = Some app →
     ps !! i =
     Some (toggle_server backend serverName (entry_name app) enabled
             (after_toggles backend serverName enabled (take i apps) b)).1) ∧
  ((∀ p, p ∈ ps → ∃ u, p = Resolved u) →
   handleToggleAllApps backend settled settled' serverName enabled ui b
   = loadData backend settled' ui b') ∧
  (∀ i e,
     rejects_first settled ps i e →
     handleToggleAllApps backend settled settled' serverName enabled ui b
     = (setError (Some (String.append "Failed to toggle server: " e)) ui, b')) ∧
  ((∃ i e, ps !! i = Some (Rejected e)) →
   ∃ i e, rejects_first settled ps i e).
Proof.
  intros Hfind. simpl. split_and!.
  - apply invoke_toggles_length.
  - intros i app. apply invoke_toggles_lookup.
  - intros Hall. unfold handleToggleAllApps. rewrite Hfind.
    pose proof (invoke_toggles_state serverName enabled (applications server) b)
      as Hst.
    destruct (invoke_toggles backend _ _ _ b) as [ps b1]. simpl in *.
    rewrite (Promise_all_resolved settled ps Hall). by rewrite Hst.
  - intros i e Hi. unfold handleToggleAllApps. rewrite Hfind.
    pose proof (invoke_toggles_state serverName enabled (applications server) b)
      as Hst.
    destruct (invoke_toggles backend _ _ _ b) as [ps b1]. simpl in *.
    rewrite (Promise_all_rejected settled ps i e Hi). by rewrite Hst.
  - apply first_rejection_exists.
Qed.

End HandlerFacts.

Lemma handleToggleAllApps_outcome_witness :
  let b := Demo.loaded ["Claude Desktop"] in
  let b' := App.after_toggles Demo.backend "filesystem" false Demo.three_apps b in
  App.handleToggleAllApps Demo.backend [2; 0; 1] [] "filesystem" false Demo.ui b
  = (App.setError
       (Some "Failed to toggle server: ConfigNotFoundError") Demo.ui, b') ∧
  Engine.registry b' =
    list_to_map
      [ ("Claude Desktop", [sample_server "filesystem" "Claude Desktop" false]) ].
Proof.
  split.
  - apply (handleToggleAllApps_outcome Demo.backend [2; 0; 1] [] "filesystem"
             false Demo.ui (Demo.loaded ["Claude Desktop"])
             {| App.cs_name := "filesystem";
                App.applications := Demo.three_apps |}
             eq_refl) with (i := 2).
    split; [reflexivity|]. exists 0. split; [reflexivity|].
    intros k' j Hlt. lia.
  - vm_compute. reflexivity.
Defined.

(** C5, as stated, fails: the handler does not report each application's
    outcome.  With Cursor's configuration missing, and with Zed's missing as
    well, the per-application outcomes differ and the handler leaves the same
    single error in both cases. *)
Lemma handleToggleAllApps_report_counterexample :
  let one_missing := Demo.loaded ["Claude Desktop"; "Zed"] in
  let two_missing := Demo.loaded ["Claude Desktop"] in
  (App.invoke_toggles Demo.backend "filesystem" false Demo.three_apps
     one_missing).1
  = [ JS.Resolved (); JS.Rejected "ConfigNotFoundError"; JS.Resolved () ] ∧
  (App.invoke_toggles Demo.backend "filesystem" false Demo.three_apps
     two_missing).1
  = [ JS.Resolved (); JS.Rejected "ConfigNotFoundError";
      JS.Rejected "ConfigNotFoundError" ] ∧
  (App.handleToggleAllApps Demo.backend [] [] "filesystem" false Demo.ui
     one_missing).1
  = (App.handleToggleAllApps Demo.backend [] [] "filesystem" false Demo.ui
       two_missing).1 ∧
  App.error
    (App.handleToggleAllApps Demo.backend [] [] "filesystem" false Demo.ui
       one_missing).1
  = Some "Failed to toggle server: ConfigNotFoundError".
Proof. vm_compute. auto. Qed.

(** * Further properties of the front end *)

(** ** [loadData] as a whole *)

Section LoadDataFacts.
Import JS App AppView.
Context `{Collator} `{Host} {B : Type} (backend : Backend B).

Lemma compareApplications_total a b :
  cmp_le compareApplications a b ∨ cmp_le compareApplications b a.
Proof.
  unfold cmp_le, compareApplications.
  pose proof (localeCompare_flip (app_name a) (app_name b)). lia.
Qed.

Lemma compareApplications_trans a b c :
  cmp_le compareApplications a b → cmp_le compareApplications b c →
  cmp_le compareApplications a c.
Proof. unfold cmp_le, compareApplications. apply localeCompare_trans. Qed.

Lemma loadData_unfold settled ui b p1 b1 p2 b2 p3 b3 p4 b4 :
  get_servers backend b = (p1, b1) →
  get_applications backend b1 = (p2, b2) →
  get_system_status backend b2 = (p3, b3) →
  get_settings backend b3 = (p4, b4) →
  loadData backend settled ui b =
  (setLoading false
     match first_rejection settled
             [settling p1; settling p2; settling p3; settling p4],
           p1, p2, p3, p4 with
     | None, Resolved serversData, Resolved appsData, Resolved statusData,
       Resolved settingsData =>
         match rebuild serversData settingsData with
         | Resolved consolidated =>
             {| consolidatedServers := consolidated;
                applicationsState := sort compareApplications appsData;
                systemStatus := Some statusData;
                loading := loading ui;
                error := None |}
         | Rejected e =>
             setError (Some (String.append "Failed to load data: " e))
               (setError None ui)
         end
     | Some e, _, _, _, _ =>
         setError (Some (String.append "Failed to load data: " e))
           (setError None ui)
     | None, _, _, _, _ => setError None ui
     end, b4).
Proof. intros H1 H2 H3 H4. unfold loadData. by rewrite H1, H2, H3, H4. Qed.

Lemma settling_resolved {A : Type} (p : Promise A) :
  (∃ u, settling p = Resolved u) ↔ ∃ a, p = Resolved a.
Proof. destruct p; simpl; split; intros [? ?]; try done; by eexists. Qed.

Lemma first_rejection_four {A1 A2 A3 A4 : Type} settled
    (p1 : Promise A1) (p2 : Promise A2) (p3 : Promise A3) (p4 : Promise A4) :
  first_rejection settled [settling p1; settling p2; settling p3; settling p4]
  = None ↔
  (∃ a, p1 = Resolved a) ∧ (∃ a, p2 = Resolved a) ∧
  (∃ a, p3 = Resolved a) ∧ (∃ a, p4 = Resolved a).
Proof.
  rewrite first_rejection_None. split.
  - intros Hall.
    split_and!; apply settling_resolved; apply Hall;
      repeat first [by left | right].
  - intros (? & ? & ? & ?) p Hp.
    repeat (apply elem_of_cons in Hp as [->|Hp]; [by apply settling_resolved|]).
    by apply elem_of_nil in Hp.
Qed.

(** A load reaches [setConsolidatedServers] exactly when the four commands
    are fulfilled and the settings are not [null]. *)
Lemma loadData_loaded settled ui b :
  let r1 := get_servers backend b in
  let r2 := get_applications backend r1.2 in
  let r3 := get_system_status backend r2.2 in
  let r4 := get_settings backend r3.2 in
  loaded (loadData backend settled ui b).1 = true ↔
  resolved r1.1 ∧ resolved r2.1 ∧ resolved r3.1 ∧
  ∃ settingsData, r4.1 = Resolved settingsData ∧ settingsData ≠ JNull.
Proof.
  destruct (get_servers backend b) as [p1 b1] eqn:H1; simpl.
  destruct (get_applications backend b1) as [p2 b2] eqn:H2; simpl.
  destruct (get_system_status backend b2) as [p3 b3] eqn:H3; simpl.
  destruct (get_settings backend b3) as [p4 b4] eqn:H4; simpl.
  rewrite (loadData_unfold settled ui b _ _ _ _ _ _ _ _ H1 H2 H3 H4). simpl.
  unfold loaded. rewrite bool_decide_eq_true.
  destruct (first_rejection settled _) as [e|] eqn:Hfirst.
  - split; [done|]. intros (Hr1 & Hr2 & Hr3 & settingsData & Hr4 & _).
    assert (first_rejection settled
              [settling p1; settling p2; settling p3; settling p4] = None)
      as Hnone.
    { apply first_rejection_four. split_and!; [done|done|done|by eexists]. }
    congruence.
  - apply first_rejection_four in Hfirst
      as ([v1 ->] & [v2 ->] & [v3 ->] & [v4 ->]).
    unfold rebuild. destruct v4; simpl;
      try (split; [|done]; intros _;
           split_and!; [by eexists | by eexists | by eexists |];
           eexists; by split).
    split; [done|]. by intros (_ & _ & _ & ? & [= <-] & ?).
Qed.


(** A refresh that succeeds clears the error and shows the applications in
    alphabetical order of name: the same applications the back end returned,
    each as often. *)
Theorem loadData_success settled ui b serversData appsData statusData
    settingsData :
  (get_servers backend b).1 = Resolved serversData →
  (get_applications backend (get_servers backend b).2).1 = Resolved appsData →
  (get_system_status backend
     (get_applications backend (get_servers backend b).2).2).1
    = Resolved statusData →
  (get_settings backend
     (get_system_status backend
        (get_applications backend (get_servers backend b).2).2).2).1
    = Resolved settingsData →
  settingsData ≠ JNull →
  let out := (loadData backend settled ui b).1 in
  error out = None ∧
  loading out = false ∧
  rebuild serversData settingsData = Resolved (consolidatedServers out) ∧
  systemStatus out = Some statusData ∧
  applicationsState out ≡ₚ appsData ∧
  StronglySorted (λ a a', alphabetical (app_name a) (app_name a'))
    (applicationsState out).
Proof.
  destruct (get_servers backend b) as [p1 b1] eqn:H1; simpl.
  destruct (get_applications backend b1) as [p2 b2] eqn:H2; simpl.
  destruct (get_system_status backend b2) as [p3 b3] eqn:H3; simpl.
  destruct (get_settings backend b3) as [p4 b4] eqn:H4; simpl.
  intros -> -> -> -> Hnull.
  rewrite (loadData_unfold settled ui b _ _ _ _ _ _ _ _ H1 H2 H3 H4). simpl.
  assert (first_rejection settled
            [Resolved (); Resolved (); Resolved (); Resolved ()] = None) as ->.
  { apply (first_rejection_four settled (Resolved serversData)
             (Resolved appsData) (Resolved statusData) (Resolved settingsData)).
    split_and!; by eexists. }
  destruct (rebuild serversData settingsData) as [consolidated|e] eqn:Hre.
  - simpl. split_and!; try done.
    + apply sort_Permutation.
    + apply (sort_sorted compareApplications);
        [apply compareApplications_total | apply compareApplications_trans].
  - unfold rebuild in Hre. by destruct settingsData.
Qed.

End LoadDataFacts.

(** ** What the consolidated view holds *)

Section ViewFacts.
Import JS App AppView.
Context `{Collator} `{Host}.

Lemma rows_app cs1 cs2 : rows (cs1 ++ cs2) = (rows cs1 ++ rows cs2)%list.
Proof. unfold rows. apply bind_app. Qed.

Lemma rows_cons c cs :
  rows (c :: cs) =
  (((λ app, (cs_name c, app)) <$> applications c) ++ rows cs)%list.
Proof. done. Qed.

Lemma rows_step acc s :
  rows (consolidate_step acc s) ≡ₚ rows acc ++ [row_of s].
Proof.
  unfold consolidate_step.
  destruct (list_find _ acc) as [[i x]|] eqn:Hfind.
  - apply list_find_Some in Hfind as (Hi & Hx & _).
    rewrite insert_take_drop by (by eapply lookup_lt_Some).
    rewrite <- (take_drop_middle acc i x Hi) at 3.
    rewrite !rows_app, !rows_cons. simpl.
    rewrite fmap_app. simpl. unfold row_of. rewrite <- Hx.
    rewrite <- !(assoc_L (++)). apply Permutation_app_head.
    apply Permutation_app_head. simpl. by rewrite Permutation_app_comm.
  - by rewrite rows_app, rows_cons.
Qed.

Lemma rows_consolidate l : rows (consolidate l) ≡ₚ row_of <$> l.
Proof.
  induction l as [|s l IH] using rev_ind; [done|].
  by rewrite consolidate_snoc, rows_step, IH, fmap_app.
Qed.

Lemma consolidate_nonempty l e : e ∈ consolidate l → applications e ≠ [].
Proof.
  intros He. rewrite (consolidate_applications l e He).
  assert (cs_name e ∈ name <$> l) as (s & Hs & Hin)%list_elem_of_fmap.
  { apply consolidate_names_elem, list_elem_of_fmap. by exists e. }
  intros Hnil%fmap_nil_inv.
  by eapply (filter_nil_not_elem_of _ l s).
Qed.

(** The consolidated view draws every record the filter keeps exactly once,
    and nothing else: its rows, server name with application entry, are a
    rearrangement of the records of the applications the settings do not
    disable. *)
Theorem rebuild_rows serversData settingsData eas consolidated :
  enabledAppsSettings settingsData = Some eas →
  rebuild serversData settingsData = Resolved consolidated →
  rows consolidated ≡ₚ
    row_of <$> filter (λ s, appShown eas s) serversData.
Proof.
  intros Heas. rewrite (rebuild_resolved _ _ eas Heas). intros [= <-].
  rewrite rows_consolidate. unfold filteredServers, sortedServers.
  by rewrite sort_Permutation.
Qed.

(** No consolidated server is without an application; so whenever the
    switch of a server shows all its applications enabled, its status dot
    shows that some are. *)
Theorem rebuild_entries_nonempty serversData settingsData consolidated server :
  rebuild serversData settingsData = Resolved consolidated →
  server ∈ consolidated →
  applications server ≠ [] ∧
  (allEnabled server = true → someEnabled server = true).
Proof.
  intros (eas & _ & ->)%rebuild_inv Hin.
  apply consolidate_nonempty in Hin. split; [done|].
  unfold allEnabled, someEnabled.
  destruct (applications server) as [|a apps]; [done|]. simpl.
  by intros [-> _]%andb_true_iff.
Qed.

Lemma find_by_name (cs : list ConsolidatedServer) n :
  match List.find (λ s, String.eqb (cs_name s) n) cs with
  | Some server => server ∈ cs ∧ cs_name server = n
  | None => n ∉ cs_name <$> cs
  end.
Proof.
  induction cs as [|c cs IH]; simpl; [by apply not_elem_of_nil|].
  destruct (String.eqb_spec (cs_name c) n) as [Heq|Hne].
  - split; [left | done].
  - destruct (List.find _ cs) as [server|].
    + destruct IH. split; [by right | done].
    + by apply not_elem_of_cons.
Qed.

(** The switch of a server toggles the applications on screen and no
    others.  In a view that [loadData] built, [handleToggleAllApps] finds for
    a server name the entry whose applications are those of the records of
    that name that the filter kept, in the order of the view; the
    applications that the settings disable are not among them, and a name
    with no record on screen changes nothing and issues no command. *)
Theorem handleToggleAllApps_targets {B : Type} (backend : Backend B)
    settled settled' serversData eas ui n enabled b :
  consolidatedServers ui
    = consolidate (filteredServers eas (sortedServers serversData)) →
  let targets :=
    filter (λ s, name s = n) (filteredServers eas (sortedServers serversData)) in
  Forall (λ s, s ∈ serversData ∧ appShown eas s = true) targets ∧
  match List.find (λ s, String.eqb (cs_name s) n) (consolidatedServers ui) with
  | Some server =>
      targets ≠ [] ∧ applications server = toAppEntry <$> targets
  | None =>
      targets = [] ∧
      handleToggleAllApps backend settled settled' n enabled ui b = (ui, b)
  end.
Proof.
  intros Hui. simpl. split.
  - apply Forall_forall. intros s [_ [Hs Hin]%list_elem_of_filter]%list_elem_of_filter.
    split; [by apply elem_of_sort in Hin | by apply Is_true_true].
  - unfold handleToggleAllApps.
    pose proof (find_by_name (consolidatedServers ui) n) as Hfind.
    destruct (List.find _ (consolidatedServers ui)) as [server|].
    + destruct Hfind as [Hin <-]. rewrite Hui in Hin.
      pose proof (consolidate_nonempty _ _ Hin) as Hne.
      rewrite (consolidate_applications _ _ Hin) in Hne |- *.
      split; [|done]. intros Hnil. by rewrite Hnil in Hne.
    + split; [|done]. apply filter_none. intros s Hs Hname.
      apply Hfind. rewrite Hui. apply consolidate_names_elem.
      apply list_elem_of_fmap. by exists s.
Qed.

End ViewFacts.

(** ** The theme *)

Section ThemeFacts.
Import JS AppView.

Lemma theme_classes_differ : "dark-theme" ≠ "light-theme".
Proof. done. Qed.

#[local] Set Warnings "-clear-no-such-hyp".

(** Whatever the theme value and the classes of the root element,
    [applyTheme] leaves exactly one of the two theme classes on it, touches
    no other class, and applied again changes nothing. *)
Theorem applyTheme_one_theme prefersDark theme (root : ClassList) :
  let root' := applyTheme prefersDark theme root in
  ("dark-theme" ∈ root' ↔ "light-theme" ∉ root') ∧
  (∀ c, c ≠ "dark-theme" → c ≠ "light-theme" → c ∈ root' ↔ c ∈ root) ∧
  applyTheme prefersDark theme root' = root'.
Proof.
  pose proof theme_classes_differ.
  unfold applyTheme.
  destruct theme as [| | | | |s| |]; try destruct (String.eqb s "dark");
    try destruct (String.eqb s "light"); destruct prefersDark; simpl;
    (split_and!; [set_solver | set_solver | apply set_eq; set_solver]).
Qed.

Lemma initializeTheme_resolved prefersDark savedSettings (root : ClassList) :
  initializeTheme prefersDark (Resolved savedSettings) root =
  applyTheme prefersDark
    match get savedSettings "theme" with
    | Some theme => if truthy theme then theme else JStr "system"
    | None => JStr "system"
    end root.
Proof. by destruct savedSettings. Qed.

Lemma applyTheme_other prefersDark theme (root : ClassList) :
  theme ≠ JStr "dark" → theme ≠ JStr "light" →
  applyTheme prefersDark theme root = applyTheme prefersDark (JStr "system") root.
Proof.
  intros Hd Hl. destruct theme as [| | | | |s| |]; try done. unfold applyTheme.
  destruct (String.eqb_spec s "dark") as [->|_]; [done|].
  by destruct (String.eqb_spec s "light") as [->|_].
Qed.

(** [initializeTheme] applies the saved theme when the settings hold the
    string [dark] or [light]; in every other case, a rejected command, [null]
    settings, no theme, or any other value, it applies the system theme. *)
Theorem initializeTheme_fallback prefersDark get_settings (root : ClassList) :
  (∀ savedSettings theme,
      get_settings = Resolved savedSettings →
      get savedSettings "theme" = Some (JStr theme) →
      theme = "dark" ∨ theme = "light" →
      initializeTheme prefersDark get_settings root
      = applyTheme prefersDark (JStr theme) root) ∧
  ((∀ savedSettings,
      get_settings = Resolved savedSettings →
      get savedSettings "theme" ≠ Some (JStr "dark") ∧
      get savedSettings "theme" ≠ Some (JStr "light")) →
   initializeTheme prefersDark get_settings root
   = applyTheme prefersDark (JStr "system") root).
Proof.
  split.
  - intros savedSettings theme -> Hget Htheme.
    rewrite initializeTheme_resolved, Hget. by destruct Htheme as [-> | ->].
  - intros Hother. destruct get_settings as [savedSettings|e]; [|done].
    destruct (Hother savedSettings eq_refl) as [Hd Hl].
    rewrite initializeTheme_resolved.
    destruct (get savedSettings "theme") as [theme|]; [|done].
    destruct (truthy theme); [|done].
    apply applyTheme_other; congruence.
Qed.

End ThemeFacts.

(** ** The settings form and the dashboard *)

Section SettingsFormFacts.
Import JS Settings SettingsForm App.

Lemma filter_all {A : Type} (P : A → Prop) `{∀ x, Decision (P x)} (l : list A) :
  (∀ x, x ∈ l → P x) → filter P l = l.
Proof.
  induction l as [|x l IH]; intros Hl; [done|].
  rewrite filter_cons_True by (apply Hl; left).
  f_equal. apply IH. intros y Hy. apply Hl. by right.
Qed.

(** The defaults of the form are not the defaults of the dashboard.  For a
    persisted document with no [enabledApps], the form shows Zed and
    Continue.dev unchecked, while the dashboard, which reads the document
    itself, keeps the servers of every application. *)
Theorem form_defaults_not_applied (m : gmap string jsval)
    (servers : list MCPServer) :
  m !! "enabledApps" = None →
  let form := loadSettings (inr (JObj m)) in
  get_path (JObj form) ["enabledApps"; "Zed"] = Some (JBool false) ∧
  get_path (JObj form) ["enabledApps"; "Continue.dev"] = Some (JBool false) ∧
  ∃ eas,
    enabledAppsSettings (JObj m) = Some eas ∧
    filteredServers eas servers = servers.
Proof.
  intros Hm. cbn [get_path get]. rewrite (loadSettings_missing (JObj m)) by done.
  split_and!; [done|done|].
  exists (JObj ∅). split.
  - unfold enabledAppsSettings. simpl. by rewrite Hm.
  - apply filter_all. intros s _. unfold appShown. simpl.
    by rewrite lookup_empty.
Qed.

Lemma enabledAppsSettings_object (settings ea : gmap string jsval) :
  settings !! "enabledApps" = Some (JObj ea) →
  enabledAppsSettings (saveSettings settings) = Some (JObj ea).
Proof. intros Hea. unfold enabledAppsSettings, saveSettings. simpl. by rewrite Hea. Qed.

(** An application's check box governs that application and no other.  Once
    the form is saved and the back end returns what it was given, the
    dashboard keeps a server of the application exactly when the box was
    checked, and keeps a server of any other application exactly when it did
    before the change. *)
Theorem enabledApp_checkbox_governs settings ea app checked
    (servers : list MCPServer) :
  settings !! "enabledApps" = Some (JObj ea) →
  ∃ eas eas',
    enabledAppsSettings (saveSettings settings) = Some eas ∧
    enabledAppsSettings
      (saveSettings (onChange_enabledApp app checked settings)) = Some eas' ∧
    ∀ s,
      (application s = app →
       s ∈ filteredServers eas' servers ↔ s ∈ servers ∧ checked = true) ∧
      (application s ≠ app →
       s ∈ filteredServers eas' servers ↔ s ∈ filteredServers eas servers).
Proof.
  intros Hea. exists (JObj ea), (JObj (<[app := JBool checked]> ea)).
  split_and!.
  - by apply enabledAppsSettings_object.
  - apply enabledAppsSettings_object. unfold onChange_enabledApp.
    by rewrite Hea, lookup_insert_eq.
  - intros s. unfold filteredServers, appShown.
    rewrite !list_elem_of_filter. simpl. split.
    + intros ->. rewrite lookup_insert_eq. destruct checked; simpl;
        intuition congruence.
    + intros Hne. by rewrite lookup_insert_ne.
Qed.

(** Every banner of the form is drawn in the error colours exactly when the
    command behind it was rejected. *)
Theorem message_drawn_as_error a (outcome : Promise unit) :
  drawn_as_error (message_of a outcome) = true ↔ ∃ e, outcome = Rejected e.
Proof.
  destruct a, outcome as [[]|e]; vm_compute; split;
    (done || (intros _; by eexists) || (by intros [? ?])).
Qed.

End SettingsFormFacts.

(** ** [parseInt] reads back a decimal numeral *)

Section ParseIntFacts.
Import JS.

Lemma digit_value_pretty d :
  (d < 10)%N → digit_value (pretty_N_char d) = Some (Z.of_N d).
Proof.
  intros Hd.
  assert (d = 0 ∨ d = 1 ∨ d = 2 ∨ d = 3 ∨ d = 4 ∨ d = 5 ∨ d = 6 ∨ d = 7
          ∨ d = 8 ∨ d = 9)%N as Hcases by lia.
  repeat (destruct Hcases as [->|Hcases]; [done|]). by subst.
Qed.

Lemma digits_pretty_N_go x :
  (0 < x)%N →
  ∃ p : Z, ∀ s acc,
    digits 10 (pretty_N_go x s) acc =
    digits 10 s (Some (default 0 acc * p + Z.of_N x)%Z).
Proof.
  induction (N.lt_wf_0 x) as [x _ IH]. intros Hx.
  assert (x `mod` 10 < 10)%N as Hr by (by apply N.mod_lt).
  pose proof (N.div_mod x 10 ltac:(done)) as Hdm.
  destruct (decide (x `div` 10 = 0)%N) as [Hq|Hq].
  - exists 10%Z. intros s acc. rewrite pretty_N_go_step, Hq, pretty_N_go_0 by done.
    simpl. rewrite digit_value_pretty by done.
    destruct (Z.ltb_spec (Z.of_N (x `mod` 10)) 10); [|lia].
    do 2 f_equal. lia.
  - destruct (IH (x `div` 10)%N) as [p Hp]; [by apply N.div_lt | lia |].
    exists (p * 10)%Z. intros s acc. rewrite pretty_N_go_step, Hp by done.
    simpl. rewrite digit_value_pretty by done.
    destruct (Z.ltb_spec (Z.of_N (x `mod` 10)) 10); [|lia].
    do 2 f_equal. lia.
Qed.

Lemma pretty_N_go_head x s :
  (0 < x)%N →
  ∃ d rest, (0 < d < 10)%N ∧ pretty_N_go x s = String (pretty_N_char d) rest.
Proof.
  revert s. induction (N.lt_wf_0 x) as [x _ IH]. intros s Hx.
  rewrite pretty_N_go_step by done.
  destruct (decide (x `div` 10 = 0)%N) as [Hq|Hq].
  - rewrite Hq, pretty_N_go_0. exists (x `mod` 10)%N, s. split; [|done].
    pose proof (N.div_mod x 10 ltac:(done)).
    pose proof (N.mod_lt x 10 ltac:(done)). lia.
  - apply IH; [by apply N.div_lt | by apply N.neq_0_lt_0].
Qed.

Lemma skip_spaces_keep c rest :
  is_space c = false → (nat_of_ascii c < 128)%nat →
  skip_spaces (String c rest) = String c rest.
Proof.
  intros Hs Hc. cbn [skip_spaces]. rewrite Hs.
  assert (∀ k, (128 ≤ k)%nat → (nat_of_ascii c =? k)%nat = false) as Hne.
  { intros k Hk. apply Nat.eqb_neq. lia. }
  assert (∀ c2, is_space2 c c2 = false) as H2.
  { intros c2. unfold is_space2. by rewrite Hne by lia. }
  assert (∀ c2 c3, is_space3 c c2 c3 = false) as H3.
  { intros c2 c3. unfold is_space3. cbv zeta. by rewrite !Hne by lia. }
  destruct rest as [|c2 [|c3 s3]]; [done | by rewrite H2 | by rewrite H2, H3].
Qed.

Lemma parseInt_numeral d rest :
  (0 < d < 10)%N →
  parseInt (String (pretty_N_char d) rest) =
    from_option to_double NaN
      (digits 10 (String (pretty_N_char d) rest) None) ∧
  parseInt (String "-" (String (pretty_N_char d) rest)) =
    from_option (λ n, to_double (- n)) NaN
      (digits 10 (String (pretty_N_char d) rest) None).
Proof.
  intros Hd.
  assert (d = 1 ∨ d = 2 ∨ d = 3 ∨ d = 4 ∨ d = 5 ∨ d = 6 ∨ d = 7 ∨ d = 8
          ∨ d = 9)%N as Hcases by lia.
  assert (∀ o : option Z,
            match o with Some n => to_double (1 * n) | None => NaN end
            = from_option to_double NaN o) as Hid.
  { intros [n|]; simpl; [f_equal; lia | done]. }
  assert (∀ o : option Z,
            match o with Some n => to_double (-1 * n) | None => NaN end
            = from_option (λ n, to_double (- n)) NaN o) as Hopp.
  { intros [n|]; simpl; [f_equal; lia | done]. }
  assert (∀ s, skip_spaces (String "-" s) = String "-" s) as Hminus.
  { intros s. apply skip_spaces_keep; [done | vm_compute; lia]. }
  assert (skip_spaces (String (pretty_N_char d) rest)
          = String (pretty_N_char d) rest) as Hdigit.
  { apply skip_spaces_keep;
      repeat (destruct Hcases as [->|Hcases]; [done || (vm_compute; lia)|]);
      subst; done || (vm_compute; lia). }
  unfold parseInt. rewrite Hminus, Hdigit.
  repeat (destruct Hcases as [->|Hcases];
          [split; cbn [pretty_N_char]; simpl; [apply Hid | apply Hopp]|]).
  subst. split; simpl; [apply Hid | apply Hopp].
Qed.

Lemma parseInt_pretty_N x :
  (0 < x)%N →
  parseInt (pretty_N_go x "") = to_double (Z.of_N x) ∧
  parseInt (String "-" (pretty_N_go x "")) = to_double (- Z.of_N x).
Proof.
  intros Hx.
  destruct (pretty_N_go_head x "" Hx) as (d & rest & Hd & Hhead).
  destruct (digits_pretty_N_go x Hx) as [p Hp].
  destruct (parseInt_numeral d rest Hd) as [Hpos Hneg].
  rewrite Hhead, Hpos, Hneg, <- Hhead, Hp. simpl. split; f_equal; lia.
Qed.

Lemma parseInt_pretty (z : Z) : parseInt (pretty z) = to_double z.
Proof.
  destruct z as [|x|x]; [done| |].
  - apply (parseInt_pretty_N (N.pos x)). lia.
  - apply (parseInt_pretty_N (N.pos x)). lia.
Qed.

Lemma to_double_exact (z : Z) :
  (Z.abs z <= max_exact)%Z → to_double z = Finite z.
Proof.
  intros Hz. unfold to_double.
  by destruct (Z.leb_spec (Z.abs z) max_exact); [|lia].
Qed.

(** The refresh-interval input stores the number typed as a decimal
    numeral of up to twenty digits as [parseInt] reads it, in the range of
    the input or not: the integer itself up to [2^53] in absolute value,
    beyond that the double nearest to it. *)
Theorem onChange_refreshInterval_numeral (z : Z) settings :
  ((Z.abs z < 10 ^ 20)%Z →
   parseInt (pretty z) = to_double z ∧
   Settings.refreshInterval
     (Settings.onChange_refreshInterval (pretty z) settings)
   = Some (of_Number (to_double z))) ∧
  ((Z.abs z <= 2 ^ 53)%Z →
   Settings.refreshInterval
     (Settings.onChange_refreshInterval (pretty z) settings)
   = Some (JNum z)) ∧
  Settings.refreshInterval
    (Settings.onChange_refreshInterval "9007199254740993" settings)
  = Some (JNum 9007199254740992).
Proof.
  unfold Settings.refreshInterval, Settings.onChange_refreshInterval.
  rewrite !lookup_insert_eq, parseInt_pretty. split_and!; [done | | done].
  intros Hz. by rewrite to_double_exact.
Qed.

End ParseIntFacts.

(** ** The refresh timer *)

Section RefreshFacts.
Import JS App AppView Settings.
Context `{Collator} `{Host} {B : Type} (backend : Backend B).

Lemma step_interval ev (d : Dashboard) b :
  interval_ms d = None ∨ interval_ms d = Some 10000%Z →
  interval_ms (step backend (d, b) ev).1 = None
  ∨ interval_ms (step backend (d, b) ev).1 = Some 10000%Z.
Proof.
  intros Hd. unfold step. destruct ev.1.
  - destruct (effect_pending d); [|done]. unfold runEffect.
    destruct (loadData backend ev.2 (ui_state d) b) as [ui b1].
    destruct (get_settings backend b1) as [p b2]. by right.
  - unfold intervalTick, reload.
    destruct (interval_ms d) as [ms|] eqn:Hms; [|by left].
    by destruct (loadData backend ev.2 (ui_state d) b) as [ui b1].
  - unfold reload.
    by destruct (loadData backend ev.2 (ui_state d) b) as [ui b1].
Qed.

Lemma run_interval events (d : Dashboard) b :
  interval_ms d = None ∨ interval_ms d = Some 10000%Z →
  interval_ms (foldl (step backend) (d, b) events).1 = None
  ∨ interval_ms (foldl (step backend) (d, b) events).1 = Some 10000%Z.
Proof.
  revert d b. induction events as [|ev events IH]; intros d b Hd; [done|].
  cbn [foldl]. pose proof (step_interval ev d b Hd) as Hstep.
  destruct (step backend (d, b) ev) as [d1 b1]. by apply IH.
Qed.

(** C7, as the code has it.  Whenever the effect of [App.tsx] arms the
    refresh timer its delay is 10000 milliseconds, whatever the back end
    returns, the settings among it: no run of the component arms a timer of
    another delay.  A run of the effect reloads at once, and is due again
    exactly when that load succeeds; a tick of the timer leaves the delay as
    it is.  The settings' refresh interval defaults to 10 seconds, whether
    the persisted document lacks the field or cannot be read, and that
    default lies within the bounds 5 and 300 that the input declares; the
    input's handler stores the integer typed, up to [2^53] in absolute
    value, as it is, within those bounds or not. *)
Theorem refresh_interval_default settled (d : Dashboard) b savedSettings :
  let r := runEffect backend settled d b in
  let r1 := get_servers backend b in
  let r2 := get_applications backend r1.2 in
  let r3 := get_system_status backend r2.2 in
  let r4 := get_settings backend r3.2 in
  interval_ms r.1 = Some 10000%Z ∧
  ui_state r.1 = (loadData backend settled (ui_state d) b).1 ∧
  (effect_pending r.1 = true ↔
   resolved r1.1 ∧ resolved r2.1 ∧ resolved r3.1 ∧
   ∃ settingsData, r4.1 = Resolved settingsData ∧ settingsData ≠ JNull) ∧
  (∀ settled',
     interval_ms (intervalTick backend settled' r.1 r.2).1 = Some 10000%Z) ∧
  (∀ events b0,
     interval_ms (run backend events b0).1 = None
     ∨ interval_ms (run backend events b0).1 = Some 10000%Z) ∧
  (own_props savedSettings !! "refreshInterval" = None →
   refreshInterval (loadSettings (inr savedSettings)) = Some (JNum 10)) ∧
  (∀ e, refreshInterval (loadSettings (inl e)) = Some (JNum 10)) ∧
  (refreshInterval_min <= 10 <= refreshInterval_max)%Z ∧
  (∀ z settings,
     (Z.abs z <= 2 ^ 53)%Z →
     refreshInterval (onChange_refreshInterval (pretty z) settings)
     = Some (JNum z)).
Proof.
  cbv zeta. pose proof (loadData_loaded backend settled (ui_state d) b) as Hloaded.
  cbv zeta in Hloaded. unfold runEffect.
  destruct (loadData backend settled (ui_state d) b) as [ui b1] eqn:Hload.
  destruct (get_settings backend b1) as [p b2] eqn:Hp. cbn [fst snd] in *.
  split_and!; try done.
  - intros settled'. unfold intervalTick, reload. simpl.
    by destruct (loadData backend settled' ui b2).
  - intros events b0. apply run_interval. by left.
  - intros Hnone. unfold refreshInterval. by rewrite loadSettings_missing.
  - intros z settings Hz.
    unfold refreshInterval, onChange_refreshInterval.
    by rewrite lookup_insert_eq, parseInt_pretty, to_double_exact.
Qed.

End RefreshFacts.

(** With a refresh interval of 60 seconds in the settings the back end
    returns, the effect arms a timer of 10000 milliseconds all the same. *)
Lemma refresh_interval_default_witness :
  App.get_settings Demo.backend60 (Demo.loaded ["Zed"])
  = (JS.Resolved
       (JS.JObj (<["refreshInterval" := JS.JNum 60]> Settings.defaultSettings)),
     Demo.loaded ["Zed"]) ∧
  App.interval_ms
    (App.runEffect Demo.backend60 [] App.mounted (Demo.loaded ["Zed"])).1
  = Some 10000%Z.
Proof.
  split; [reflexivity|].
  apply (refresh_interval_default Demo.backend60 [] App.mounted
           (Demo.loaded ["Zed"]) JS.JNull).
Defined.

(** C7, as stated, fails: an interval of 60 seconds held by the settings
    leaves the timer at 10 seconds, and the input's handler stores what
    [parseInt] returns, in range or not. *)
Lemma refresh_interval_counterexample :
  Settings.refreshInterval
    (Settings.onChange_refreshInterval "60" Settings.defaultSettings)
    = Some (JS.JNum 60) ∧
  App.interval_ms
    (App.runEffect Demo.backend60 [] App.mounted (Demo.loaded ["Zed"])).1
    = Some App.refresh_delay_ms ∧
  App.refresh_delay_ms ≠ (1000 * 60)%Z ∧
  Settings.refreshInterval
    (Settings.onChange_refreshInterval "1000" Settings.defaultSettings)
    = Some (JS.JNum 1000) ∧
  ¬ (Settings.refreshInterval_min <= 1000 <= Settings.refreshInterval_max)%Z ∧
  Settings.refreshInterval
    (Settings.onChange_refreshInterval "" Settings.defaultSettings)
    = Some JS.JNaN ∧
  Settings.saveSettings
    (Settings.onChange_refreshInterval "1000" Settings.defaultSettings)
    = JS.JObj (<["refreshInterval" := JS.JNum 1000]> Settings.defaultSettings).
Proof.
  split_and!; try (vm_compute; reflexivity).
  - vm_compute. discriminate.
  - unfold Settings.refreshInterval_min, Settings.refreshInterval_max. lia.
Qed.

(** ** The server dialog *)

Section ServerDetailFacts.
Import JS ServerDetail.

Lemma spread_array_dense (l : list string) :
  spread_array (Str <$> l) = Str <$> l.
Proof.
  unfold spread_array. rewrite <- list_fmap_compose. by apply list_fmap_ext.
Qed.

Lemma snd_imap_pair {A : Type} (f : nat → nat) (l : list A) :
  snd <$> imap (λ j a, (f j, a)) l = l.
Proof.
  revert f. induction l as [|x l IH]; intros f; [done|].
  simpl. f_equal. apply (IH (f ∘ S)).
Qed.

Lemma filter_index_delete {A : Type} (l : list A) i k :
  snd <$> filter (λ p : nat * A, p.1 ≠ k + i) (imap (λ j a, (k + j, a)) l)
  = delete i l.
Proof.
  revert i k. induction l as [|x l IH]; intros i k; [by destruct i|].
  simpl. destruct i as [|i].
  - rewrite filter_cons_False by (simpl; lia). simpl.
    rewrite filter_all; [apply (snd_imap_pair (λ j, k + S j))|].
    intros [j a] (j' & a' & [= -> ->] & _)%elem_of_lookup_imap. simpl. lia.
  - rewrite filter_cons_True by (simpl; lia). simpl. f_equal.
    rewrite <- (IH i (S k)).
    replace (k + S i) with (S k + i) by lia.
    f_equal. f_equal. apply imap_ext. intros j a _. simpl. f_equal. lia.
Qed.

Lemma delete_fmap {A C : Type} (f : A → C) (l : list A) i :
  delete i (f <$> l) = f <$> delete i l.
Proof.
  revert i. induction l as [|x l IH]; intros [|i]; simpl; try done.
  f_equal. apply IH.
Qed.

Lemma delete_past_end {A : Type} (l : list A) (i : nat) :
  (List.length l ≤ i)%nat → delete i l = l.
Proof.
  revert i. induction l as [|x l IH]; intros [|i] Hi; simpl in *; try done;
    [lia|]. f_equal. apply IH. lia.
Qed.

Lemma delete_last {A : Type} (l : list A) x :
  delete (List.length l) (l ++ [x])%list = l.
Proof. induction l as [|y l IH]; simpl; [done|]. by f_equal. Qed.

Lemma removeArg_dense i (l : list string) :
  removeArg i (Str <$> l) = Str <$> delete i l.
Proof.
  unfold removeArg. rewrite (filter_all (λ p : nat * Slot, p.2 ≠ Empty)).
  - rewrite <- delete_fmap. exact (filter_index_delete (Str <$> l) i 0).
  - intros [j a] (j' & a' & Heq & Ha)%elem_of_lookup_imap.
    injection Heq as -> ->. simpl.
    rewrite list_lookup_fmap in Ha. destruct (l !! j'); [|done].
    by injection Ha as <-.
Qed.

(** Editing the arguments of a server, an array of strings: removing an
    argument drops the entry at that position, keeps the others in order and
    does nothing past the end; adding an argument and removing it again gives
    back the array; changing an argument within the array changes that
    position and no other. *)
Theorem args_editing (l : list string) i value :
  removeArg i (Str <$> l) = Str <$> delete i l ∧
  ((length l ≤ i)%nat → removeArg i (Str <$> l) = Str <$> l) ∧
  removeArg (length l) (addArg (Str <$> l)) = Str <$> l ∧
  (i < length l → updateArg i value (Str <$> l) = Str <$> <[i := value]> l).
Proof.
  split_and!.
  - apply removeArg_dense.
  - intros Hi. by rewrite removeArg_dense, delete_past_end.
  - unfold addArg. rewrite spread_array_dense.
    change ((Str <$> l) ++ [Str ""])%list
      with ((Str <$> l) ++ (Str <$> [""]))%list.
    by rewrite <- fmap_app, removeArg_dense, delete_last.
  - intros Hi. unfold updateArg. rewrite spread_array_dense, length_fmap.
    rewrite decide_True by done. by rewrite list_fmap_insert.
Qed.

(** [addEnv] gives the new variable the number of variables plus one; that
    name can be taken.  The variable count grows by one when the name is
    free; when it is taken nothing is added and the variable of that name
    loses its value.  Every other variable is kept. *)
Theorem addEnv_name_clash (env : Env) :
  addEnv env !! newKey env = Some (Some "") ∧
  (∀ k, k ≠ newKey env → addEnv env !! k = env !! k) ∧
  (env !! newKey env = None → size (addEnv env) = S (size env)) ∧
  (is_Some (env !! newKey env) → size (addEnv env) = size env).
Proof.
  unfold addEnv. split_and!.
  - apply lookup_insert_eq.
  - intros k Hk. by apply lookup_insert_ne.
  - intros Hfree. by apply map_size_insert_None.
  - apply map_size_insert_Some.
Qed.

(** Renaming a variable that is there moves its value to the new name,
    unless the new name is [__proto__] and no variable has it: then the
    variable is lost.  Otherwise a new name that is free keeps the count,
    and the rename can be undone when the old name is not [__proto__]; a new
    name that is taken replaces that variable, and one variable is lost. *)
Theorem updateEnvKey_rename (env : Env) oldKey newKey v :
  oldKey ≠ newKey →
  env !! oldKey = Some v →
  let env' := updateEnvKey oldKey newKey env in
  env' !! oldKey = None ∧
  (∀ k, k ≠ oldKey → k ≠ newKey → env' !! k = env !! k) ∧
  (newKey ≠ "__proto__" ∨ is_Some (env !! newKey) → env' !! newKey = Some v) ∧
  (env !! newKey = None → newKey ≠ "__proto__" →
   size env' = size env ∧
   (oldKey ≠ "__proto__" → updateEnvKey newKey oldKey env' = env)) ∧
  (is_Some (env !! newKey) → S (size env') = size env) ∧
  (env !! newKey = None → newKey = "__proto__" →
   env' = delete oldKey env ∧ S (size env') = size env).
Proof.
  intros Hne Hold. unfold updateEnvKey.
  destruct (String.eqb_spec oldKey newKey) as [?|_]; [done|].
  destruct (String.eqb_spec newKey oldKey) as [?|_]; [done|].
  rewrite Hold. simpl.
  assert (size env ≠ 0) as Hs.
  { apply map_size_non_empty_iff. intros ->. by rewrite lookup_empty in Hold. }
  rewrite lookup_delete_ne by done.
  destruct (env !! newKey) as [w|] eqn:Hnew.
  - split_and!.
    + rewrite lookup_insert_ne by done. apply lookup_delete_eq.
    + intros k Hk1 Hk2. by rewrite lookup_insert_ne, lookup_delete_ne.
    + intros _. apply lookup_insert_eq.
    + done.
    + intros _.
      rewrite map_size_insert_Some by (by rewrite lookup_delete_ne).
      rewrite map_size_delete_Some by done. lia.
    + done.
  - destruct (String.eqb_spec newKey "__proto__") as [Hproto|Hproto].
    + split_and!.
      * apply lookup_delete_eq.
      * intros k Hk1 Hk2. by rewrite lookup_delete_ne.
      * intros [?|[? ?]]; done.
      * done.
      * by intros [? ?].
      * intros _ _. split; [done|].
        rewrite map_size_delete_Some by done. lia.
    + split_and!.
      * rewrite lookup_insert_ne by done. apply lookup_delete_eq.
      * intros k Hk1 Hk2. by rewrite lookup_insert_ne, lookup_delete_ne.
      * intros _. apply lookup_insert_eq.
      * intros _ _. split.
        -- rewrite map_size_insert_None by (by rewrite lookup_delete_ne).
           rewrite map_size_delete_Some by done. lia.
        -- intros Hold'. rewrite lookup_insert_eq. simpl.
           rewrite delete_insert_eq, delete_id by (by rewrite lookup_delete_ne).
           rewrite lookup_delete_eq.
           destruct (String.eqb_spec oldKey "__proto__") as [?|_]; [done|].
           by rewrite insert_delete_id.
      * by intros [? ?].
      * done.
Qed.

(** The port, rate-limit and timeout inputs never store zero or a text that
    is not a number: the field then reads as missing.  They change no other
    field.  The startup order always holds a number, zero for such a text. *)
Theorem optional_number_fields field value (config : Config) :
  let config' := onChange_optional_number field value config in
  (config' !! field = None ∧ (parseInt value = NaN ∨ parseInt value = Finite 0)
   ∨ ∃ n, n ≠ NaN ∧ n ≠ Finite 0 ∧ parseInt value = n ∧
          config' !! field = Some (of_Number n)) ∧
  (∀ k, k ≠ field → config' !! k = config !! k) ∧
  (∃ n, onChange_startupOrder value config !! "startupOrder"
        = Some (of_Number n) ∧
        n ≠ NaN ∧ (parseInt value = NaN → n = Finite 0)).
Proof.
  unfold onChange_optional_number, onChange_startupOrder. split_and!.
  - destruct (parseInt value) as [|z|neg] eqn:Hp; simpl.
    + left. split; [apply lookup_delete_eq | by left].
    + destruct (Z.eqb_spec z 0) as [->|Hz]; simpl.
      * left. split; [apply lookup_delete_eq | by right].
      * right. exists (Finite z).
        split_and!; [done | congruence | done | apply lookup_insert_eq].
    + right. exists (Infinity neg).
      split_and!; [done | done | done | apply lookup_insert_eq].
  - intros k Hk. cbv zeta. destruct (truthy _);
      by rewrite ?lookup_insert_ne, ?lookup_delete_ne.
  - cbv zeta. rewrite lookup_insert_eq.
    destruct (parseInt value) as [|z|neg]; simpl.
    + by exists (Finite 0).
    + destruct (Z.eqb_spec z 0) as [->|Hz]; simpl;
        [by exists (Finite 0) | by exists (Finite z)].
    + by exists (Infinity neg).
Qed.

(** [resetConfig] announces success whatever happened: when the
    configuration cannot be reloaded the dialog keeps the configuration it
    had and still shows, in the colours of success, that it was reset. *)
Theorem resetConfig_reports_success outcome (st : jsval * option string) :
  (resetConfig outcome st).2 = Some "Configuration reset to saved values" ∧
  drawn_as_error "Configuration reset to saved values" = false ∧
  drawn_as_error "Failed to load server configuration" = true ∧
  (∀ e, outcome = Rejected e → (resetConfig outcome st).1 = st.1) ∧
  (∀ c, outcome = Resolved c → (resetConfig outcome st).1 = c).
Proof. split_and!; try done; by intros ? ->. Qed.

End ServerDetailFacts.

(** ** The log view *)

Section LogsViewFacts.
Import JS Logs LogsView.
Context `{Host}.

#[local] Set Warnings "-clear-no-such-hyp".

(** Expanding and collapsing a log entry: the handler flips the entry it is
    given and no other, and applied twice it gives back the set of expanded
    entries. *)
Theorem toggleLogExpansion_flips logId (expandedLogs : gset string) :
  (logId ∈ toggleLogExpansion logId expandedLogs ↔ logId ∉ expandedLogs) ∧
  (∀ k, k ≠ logId →
        k ∈ toggleLogExpansion logId expandedLogs ↔ k ∈ expandedLogs) ∧
  toggleLogExpansion logId (toggleLogExpansion logId expandedLogs)
  = expandedLogs.
Proof.
  unfold toggleLogExpansion.
  destruct (decide (logId ∈ expandedLogs)) as [Hin|Hout].
  - split_and!; [set_solver | set_solver |].
    rewrite decide_False by set_solver. apply set_eq. intros k.
    destruct (decide (k = logId)); set_solver.
  - split_and!; [set_solver | set_solver |].
    rewrite decide_True by set_solver. apply set_eq. set_solver.
Qed.

Lemma append_assoc (a b c : string) :
  String.append (String.append a b) c = String.append a (String.append b c).
Proof.
  induction a as [|x a IH]; [done|]. exact (f_equal (String x) IH).
Qed.

Lemma contains_ci_trans text t2 t1 :
  contains_ci text t2 → contains_ci t2 t1 → contains_ci text t1.
Proof.
  intros (a & b & Htext) (c & d & Ht2). rewrite Ht2 in Htext.
  exists (String.append a c), (String.append d b).
  by rewrite Htext, !append_assoc.
Qed.

Lemma selected_narrowing t1 t2 lf cf log :
  contains_ci t2 t1 → selected t2 lf cf log → selected t1 lf cf log.
Proof.
  intros Ht (Hl & Hc & Hs). split_and!; [done|done|].
  destruct Hs as [-> | [Hm | (d & Hd & Hdm)]].
  - left. destruct Ht as (a & b & Hab).
    rewrite (toLowerCase_ascii "" eq_refl) in Hab. simpl in Hab.
    destruct a; [|done]. simpl in Hab.
    apply toLowerCase_nil. by destruct (toLowerCase t1).
  - right; left. by eapply contains_ci_trans.
  - right; right. exists d. split; [done|]. by eapply contains_ci_trans.
Qed.

(** Typing more into the search box never brings an entry back: when the
    new term, lower-cased, contains the old one, lower-cased, the entries
    shown for the new term are among those shown for the old one, in the
    same order. *)
Theorem filterLogs_narrowing logs t1 t2 lf cf :
  contains_ci t2 t1 →
  filterLogs logs t2 lf cf `sublist_of` filterLogs logs t1 lf cf.
Proof.
  intros Ht. unfold filterLogs.
  rewrite <- (list_filter_filter_l (λ log, keeps t2 lf cf log)
                (λ log, keeps t1 lf cf log)).
  - apply sublist_filter.
  - intros log. rewrite !Is_true_true, !keeps_selected.
    by apply selected_narrowing.
Qed.

#[export] Instance LogLevel_eq_dec : EqDecision LogLevel.
Proof. solve_decision. Defined.

(** Clearing the box of a level takes the entries of that level off the
    list and leaves the others as they were. *)
Theorem onChange_level_unchecked logs term l lf cf :
  filterLogs logs term (onChange_level l false lf) cf =
  filter (λ log, level log ≠ l) (filterLogs logs term lf cf).
Proof.
  unfold filterLogs. rewrite list_filter_filter. apply list_filter_iff.
  intros log. unfold keeps, onChange_level.
  destruct (decide (level log = l)) as [<-|Hne].
  - assert (LogLevel_eqb (level log) (level log) = true) as ->
      by (by destruct (level log)).
    simpl. tauto.
  - assert (LogLevel_eqb (level log) l = false) as ->
      by (by destruct (level log), l).
    tauto.
Qed.

Lemma filterLogs_singleton log term lf cf :
  filterLogs [log] term lf cf = [log] ↔ selected term lf cf log.
Proof.
  unfold filterLogs. rewrite <- keeps_selected.
  destruct (keeps term lf cf log) eqn:Hk.
  - by rewrite filter_cons_True, filter_nil by (by rewrite Hk).
  - by rewrite filter_cons_False, filter_nil by (rewrite Hk; simpl; tauto).
Qed.

Context {B : Type} (backend : Backend B).

(** [loadLogs] with logging disabled: the log command is not issued, the
    only entry is a notice, and the notice is on screen exactly when the
    boxes of its level and category are on and the search term is empty or
    occurs in its message.  In every case the loading flag is lowered, and a
    rejected command shows the sample entries. *)
Theorem loadLogs_disabled now iso sampleLogs b :
  let r := get_settings backend b in
  let out := loadLogs backend now iso sampleLogs b in
  out.1.2 = false ∧
  (∀ settings,
      r.1 = Resolved settings → truthy settings = true →
      get settings "enableLogs" = Some (JBool false) →
      out = ([disabledEntry now iso], false, r.2)) ∧
  (∀ e, r.1 = Rejected e → out = (sampleLogs, false, r.2)) ∧
  (∀ settings e,
      r.1 = Resolved settings →
      get settings "enableLogs" ≠ Some (JBool false) →
      (get_logs backend r.2).1 = Rejected e →
      out = (sampleLogs, false, (get_logs backend r.2).2)) ∧
  (∀ term lf cf,
      filterLogs [disabledEntry now iso] term lf cf = [disabledEntry now iso] ↔
      lf info = true ∧ cf system = true ∧
      (term = "" ∨ contains_ci (message (disabledEntry now iso)) term)).
Proof.
  assert (∀ term lf cf,
      filterLogs [disabledEntry now iso] term lf cf = [disabledEntry now iso] ↔
      lf info = true ∧ cf system = true ∧
      (term = "" ∨ contains_ci (message (disabledEntry now iso)) term))
    as Hnotice.
  { intros term lf cf. rewrite filterLogs_singleton. unfold selected. simpl.
    split.
    - intros (? & ? & [?|[?|(d & ? & _)]]); auto. done.
    - intros (? & ? & [?|?]); auto. }
  unfold loadLogs. destruct (get_settings backend b) as [[settings|e] b1];
    simpl; [|by split_and!].
  split_and!; [| | done | | done].
  - destruct (truthy settings && _); [done|].
    by destruct (get_logs backend b1) as [[?|?] ?].
  - by intros ? [= <-] -> ->.
  - intros ? e [= <-] Hne Hlogs.
    assert (is_not_false (get settings "enableLogs") = true) as ->
      by (by apply is_not_false_spec).
    rewrite andb_false_r.
    destruct (get_logs backend b1) as [[?|?] ?]; simpl in *; congruence.
Qed.

End LogsViewFacts.

(** ** Installing a package *)

Section DiscoverFacts.
Import JS Discover.

#[local] Set Warnings "-clear-no-such-hyp".

(** Once an installation has settled the package is no longer marked as
    being installed.  The list keeps its packages in place: a successful
    installation marks the packages of that name as installed and changes
    nothing else, a failed one changes nothing, and no package is ever
    marked as not installed. *)
Theorem installPackage_outcome packageName outcome packages
    (installing : gset string) :
  let out := installPackage packageName outcome packages installing in
  out.2 = installing ∖ {[packageName]} ∧
  name <$> out.1 = name <$> packages ∧
  (∀ e, outcome = Rejected e → out.1 = packages) ∧
  (∀ i pkg, packages !! i = Some pkg →
     ∃ pkg', out.1 !! i = Some pkg' ∧
       (installed pkg = true → installed pkg' = true) ∧
       (name pkg ≠ packageName → pkg' = pkg) ∧
       (name pkg = packageName → (∃ u, outcome = Resolved u) →
        pkg' = set_installed pkg)).
Proof.
  unfold installPackage. simpl. split_and!.
  - apply set_eq. set_solver.
  - destruct outcome; [|done]. rewrite <- list_fmap_compose.
    apply list_fmap_ext. intros i pkg _. simpl.
    by destruct (String.eqb (name pkg) packageName).
  - by intros e ->.
  - intros i pkg Hi. destruct outcome as [u|e].
    + rewrite list_lookup_fmap, Hi. simpl. eexists. split; [done|].
      destruct (String.eqb_spec (name pkg) packageName); split_and!;
        try done; by intros.
    + exists pkg. split_and!; try done. by intros _ [? ?].
Qed.

End DiscoverFacts.

(** ** The further properties on the sample data *)

Lemma loadData_success_witness :
  let out :=
    (App.loadData Demo.backend [3; 2; 1; 0] Demo.ui
       (Demo.loaded ["Zed"; "Claude Desktop"])).1 in
  App.error out = None ∧
  App.loading out = false ∧
  App.rebuild
    [ sample_server "filesystem" "Claude Desktop" true;
      sample_server "filesystem" "Zed" true ]
    settings_without_enabledApps
    = JS.Resolved (App.consolidatedServers out) ∧
  App.systemStatus out = Some JS.JNull ∧
  App.applicationsState out ≡ₚ [] ∧
  StronglySorted
    (λ a a', App.alphabetical (Types.app_name a) (Types.app_name a'))
    (App.applicationsState out).
Proof.
  apply (loadData_success Demo.backend [3; 2; 1; 0] Demo.ui
           (Demo.loaded ["Zed"; "Claude Desktop"])
           [ sample_server "filesystem" "Claude Desktop" true;
             sample_server "filesystem" "Zed" true ]
           [] JS.JNull settings_without_enabledApps);
    (reflexivity || discriminate).
Defined.

Lemma rebuild_rows_witness :
  AppView.rows
    (App.consolidate
       (App.filteredServers (JS.JObj {[ "Zed" := JS.JBool false ]})
          (App.sortedServers sample_servers)))
  ≡ₚ AppView.row_of <$>
       filter (λ s, App.appShown (JS.JObj {[ "Zed" := JS.JBool false ]}) s)
              sample_servers.
Proof.
  apply (rebuild_rows sample_servers settings_hiding_zed
           (JS.JObj {[ "Zed" := JS.JBool false ]}));
    reflexivity.
Defined.

Lemma rebuild_entries_nonempty_witness :
  App.applications
    {| App.cs_name := "broken";
       App.applications :=
         [App.toAppEntry (sample_server "broken" "Zed" false)] |} ≠ [] ∧
  (AppView.allEnabled
     {| App.cs_name := "broken";
        App.applications :=
          [App.toAppEntry (sample_server "broken" "Zed" false)] |} = true →
   AppView.someEnabled
     {| App.cs_name := "broken";
        App.applications :=
          [App.toAppEntry (sample_server "broken" "Zed" false)] |} = true).
Proof.
  eapply (rebuild_entries_nonempty sample_servers settings_without_enabledApps);
    [reflexivity | left].
Defined.

Lemma handleToggleAllApps_targets_witness :
  Forall (λ s, s ∈ sample_servers ∧ App.appShown (JS.JObj ∅) s = true)
    [ sample_server "filesystem" "Claude Desktop" false;
      sample_server "filesystem" "Zed" true ] ∧
  [ sample_server "filesystem" "Claude Desktop" false;
    sample_server "filesystem" "Zed" true ] ≠ [] ∧
  [ App.toAppEntry (sample_server "filesystem" "Claude Desktop" false);
    App.toAppEntry (sample_server "filesystem" "Zed" true) ]
  = App.toAppEntry <$>
      [ sample_server "filesystem" "Claude Desktop" false;
        sample_server "filesystem" "Zed" true ].
Proof.
  pose proof (handleToggleAllApps_targets Demo.backend [] [] sample_servers
                (JS.JObj ∅)
                {| App.consolidatedServers :=
                     App.consolidate
                       (App.filteredServers (JS.JObj ∅)
                          (App.sortedServers sample_servers));
                   App.applicationsState := []; App.systemStatus := None;
                   App.loading := false; App.error := None |}
                "filesystem" false (Demo.loaded []) eq_refl) as [Hshown Hfind].
  vm_compute in Hfind. split; [exact Hshown | exact Hfind].
Defined.

Lemma form_defaults_not_applied_witness :
  JS.get_path
    (JS.JObj (Settings.loadSettings (inr settings_without_enabledApps)))
    ["enabledApps"; "Zed"] = Some (JS.JBool false) ∧
  JS.get_path
    (JS.JObj (Settings.loadSettings (inr settings_without_enabledApps)))
    ["enabledApps"; "Continue.dev"] = Some (JS.JBool false) ∧
  ∃ eas,
    App.enabledAppsSettings settings_without_enabledApps = Some eas ∧
    App.filteredServers eas sample_servers = sample_servers.
Proof.
  apply (form_defaults_not_applied {[ "theme" := JS.JStr "dark" ]}
           sample_servers).
  reflexivity.
Defined.

Lemma enabledApp_checkbox_governs_witness :
  ∃ eas eas',
    App.enabledAppsSettings (Settings.saveSettings Settings.defaultSettings)
      = Some eas ∧
    App.enabledAppsSettings
      (Settings.saveSettings
         (SettingsForm.onChange_enabledApp "Cursor" false
            Settings.defaultSettings)) = Some eas' ∧
    ∀ s,
      (Types.application s = "Cursor" →
       s ∈ App.filteredServers eas' sample_servers ↔
       s ∈ sample_servers ∧ false = true) ∧
      (Types.application s ≠ "Cursor" →
       s ∈ App.filteredServers eas' sample_servers ↔
       s ∈ App.filteredServers eas sample_servers).
Proof.
  apply (enabledApp_checkbox_governs Settings.defaultSettings
           Settings.defaultEnabledApps "Cursor" false sample_servers).
  reflexivity.
Defined.

Lemma updateEnvKey_rename_witness :
  let env : ServerDetail.Env := {[ "API_KEY" := Some "secret" ]} in
  let env' := ServerDetail.updateEnvKey "API_KEY" "TOKEN" env in
  env' !! "API_KEY" = None ∧
  (∀ k, k ≠ "API_KEY" → k ≠ "TOKEN" → env' !! k = env !! k) ∧
  ("TOKEN" ≠ "__proto__" ∨ is_Some (env !! "TOKEN") →
   env' !! "TOKEN" = Some (Some "secret")) ∧
  (env !! "TOKEN" = None → "TOKEN" ≠ "__proto__" →
   size env' = size env ∧
   ("API_KEY" ≠ "__proto__" →
    ServerDetail.updateEnvKey "TOKEN" "API_KEY" env' = env)) ∧
  (is_Some (env !! "TOKEN") → S (size env') = size env) ∧
  (env !! "TOKEN" = None → "TOKEN" = "__proto__" →
   env' = delete "API_KEY" env ∧ S (size env') = size env).
Proof.
  apply (updateEnvKey_rename {[ "API_KEY" := Some "secret" ]} "API_KEY" "TOKEN"
           (Some "secret")); [discriminate | reflexivity].
Defined.

(** A variable renamed to [__proto__] is lost, unless a variable of that
    name is there to take the value. *)
Example updateEnvKey_proto :
  ServerDetail.updateEnvKey "API_KEY" "__proto__"
    {[ "API_KEY" := Some "secret" ]} = ∅ ∧
  ServerDetail.updateEnvKey "API_KEY" "__proto__"
    {[ "API_KEY" := Some "secret"; "__proto__" := Some "x" ]}
  = {[ "__proto__" := Some "secret" ]}.
Proof. by vm_compute. Qed.

Lemma filterLogs_narrowing_witness :
  Logs.filterLogs sample_logs "SYNC c" Logs.initialLevelFilters
    Logs.initialCategoryFilters
  `sublist_of`
  Logs.filterLogs sample_logs "sync" Logs.initialLevelFilters
    Logs.initialCategoryFilters.
Proof.
  apply filterLogs_narrowing. exists "", " c". reflexivity.
Defined.

(** The name [addEnv] makes can be taken: with [ENV_VAR_1] removed, the
    next variable is named [ENV_VAR_2] again and the value that name held is
    lost. *)
Example addEnv_overwrites :
  let env :=
    ServerDetail.updateEnvValue "ENV_VAR_2" "secret"
      (ServerDetail.removeEnv "ENV_VAR_1"
         (ServerDetail.addEnv (ServerDetail.addEnv ∅))) in
  env = {[ "ENV_VAR_2" := Some "secret" ]} ∧
  ServerDetail.addEnv env = {[ "ENV_VAR_2" := Some "" ]}.
Proof. by vm_compute. Qed.
